(** * EZUI client: the dynamic DOM builder and its remote-editing protocol

    A shallow embedding of [src/ezui-client.js] (the dynamic DOM builder,
    lines 178-473): the flat component store, the resolution of children
    ([filter] then [sort]), the recursive [buildElement], [buildDOM], the
    mutation operations, the message handler, the click handler and the
    start-up; and of the loader and the message handler of the static variant
    of the script (lines 7-171, module [Static]).

    Conventions of the embedding.
    - Component ids and [order] values are integers ([Z]); [parentId] is an
      [option Z] whose [None] is JSON [null]. Ids are taken in the range in
      which [String] prints all their digits and [parseInt] reads them back
      exactly.
    - A JS object used as a dictionary that is only looked up ([content]) is a
      [gmap]; the ones that are iterated in key order ([styles],
      [attributes]) are association lists.
    - The page is the content of the [#root] container, which is taken to
      exist: a list of elements. An element carries its attribute map, so the
      identity attribute written through [el.dataset.id] is the attribute
      [data-id], which a later [setAttribute] may overwrite, as in the
      browser.
    - Recursion of the source that JavaScript does not bound ([buildElement],
      [findChildren]) takes a [fuel] argument; [None] stands for a call that
      exhausts the stack and never returns.
    - Messages carry the payload that the protocol table of the spec gives to
      their [type] ([Command]).
    - A click is given by the position of its target in the page; the
      elements above the page (the container, [body], [html]) are taken to
      carry no identity attribute. The message that [handleClick] posts is
      returned beside the state. Strings are read as UTF-8.

    Left out: the click handler of the static variant (lines 108-135, the
    dynamic one without the record lookup), console output, [scrollIntoView],
    [preventDefault] and [stopPropagation], the style sheet that the static
    [enableEditMode] injects, the fetch of [data.json] (the embedding starts
    from the parsed document), and [enableEditModeStyles], whose body is
    empty. Tag names and attribute names are taken to be names that
    [createElement] and [setAttribute] accept. *)

From stdpp Require Import base option list sorting strings gmap pretty.

#[local] Set Warnings "-register-all".
#[local] Open Scope Z_scope.

(** ** Component records (spec section 3, [data.json]) *)

Record Component := mkComponent {
  id : Z;
  parentId : option Z;
  order : option Z;
  elementType : option string;
  content : option (gmap string string);
  styles : option (list (string * string));
  attributes : option (list (string * string));
  ezuiCms : option string
}.

#[global] Instance Component_eq_dec : EqDecision Component.
Proof. solve_decision. Defined.

(** JavaScript truthiness of a string: only the empty string is falsy. *)
Definition truthy (s : string) : bool := bool_decide (s ≠ "").

(** [x || d] on an optional string. *)
Definition str_or (x : option string) (d : string) : string :=
  match x with
  | Some s => if truthy s then s else d
  | None => d
  end.

(** [a.order || 0]: a missing order (and the falsy order 0) counts as 0. *)
Definition orderKey (c : Component) : Z := default 0 (order c).

(** [set_order] is the assignment [comp.order = newOrder]. *)
Definition set_order (newOrder : Z) (c : Component) : Component :=
  mkComponent (id c) (parentId c) (Some newOrder) (elementType c) (content c)
              (styles c) (attributes c) (ezuiCms c).

(** ** [Array.prototype.sort] with a comparator

    ECMAScript (2019 and later) requires [sort] to be stable; for a
    consistent comparator its result is the one sorted list that keeps equal
    elements in their input order. Insertion from the right computes it: an
    element goes in front of the first element it does not compare greater
    than, and every element it is inserted among came after it in the
    input. Lemma [sort_unique] below shows that a list with ascending keys
    that keeps the elements of each key in input order is this one. *)

Section sort.
Context {A : Type} (cmp : A → A → Z).

Fixpoint sort_insert (x : A) (l : list A) : list A :=
  match l with
  | [] => [x]
  | y :: l' => if decide (cmp x y ≤ 0) then x :: l else y :: sort_insert x l'
  end.

Definition sort (l : list A) : list A := foldr sort_insert [] l.
End sort.

(** ** Tree resolver (lines 256-259) *)

(** The comparator [(a, b) => (a.order || 0) - (b.order || 0)]. *)
Definition byOrder (a b : Component) : Z := orderKey a - orderKey b.

Definition isChildOf (p : Z) (c : Component) : Prop := parentId c = Some p.

#[global] Instance isChildOf_dec p c : Decision (isChildOf p c).
Proof. unfold isChildOf. apply _. Defined.

Definition childrenOf (components : list Component) (component : Component)
  : list Component :=
  sort byOrder (filter (isChildOf (id component)) components).

(** ** Visual elements *)

Inductive Element := mkElement {
  tag : string;
  attrs : gmap string string;
  style : gmap string string;
  selected : bool;              (* the class ezui-selected *)
  text : option string;         (* Some s once textContent was assigned s *)
  kids : list Element
}.

Definition createElement (t : string) : Element :=
  mkElement t ∅ ∅ false None [].

(** In an HTML document [setAttribute] lower-cases the attribute name. *)
Definition lower_ascii (a : Ascii.ascii) : Ascii.ascii :=
  let n := Ascii.nat_of_ascii a in
  if (65 <=? n)%nat && (n <=? 90)%nat then Ascii.ascii_of_nat (n + 32) else a.

Fixpoint lower (s : string) : string :=
  match s with
  | EmptyString => EmptyString
  | String a s' => String (lower_ascii a) (lower s')
  end.

Definition setAttribute (k v : string) (el : Element) : Element :=
  mkElement (tag el) (<[lower k := v]> (attrs el)) (style el) (selected el)
            (text el) (kids el).

Definition setStyle (k v : string) (el : Element) : Element :=
  mkElement (tag el) (attrs el) (<[k := v]> (style el)) (selected el)
            (text el) (kids el).

(** [el.textContent = s] drops the element's children. *)
Definition setTextContent (s : string) (el : Element) : Element :=
  mkElement (tag el) (attrs el) (style el) (selected el) (Some s) [].

Definition appendChildren (ks : list Element) (el : Element) : Element :=
  mkElement (tag el) (attrs el) (style el) (selected el) (text el)
            (kids el ++ ks).

Definition setSelected (b : bool) (el : Element) : Element :=
  mkElement (tag el) (attrs el) (style el) b (text el) (kids el).

(** The identity attribute and the CMS tag, as [el.dataset] names them. *)
Definition DATA_ID : string := "data-id".
Definition DATA_EZUI_CMS : string := "data-ezui-cms".

Definition dataId (el : Element) : option string := attrs el !! DATA_ID.

(** [el.dataset.ezuiCms = component.ezuiCms] stores the string conversion of
    the value, which is the text undefined for a missing field. *)
Definition cmsString (x : option string) : string := default "undefined" x.

(** ** DOM builder (lines 234-277) *)

(** Lines 236-254: the element before its text or children are added. *)
Definition stampElement (component : Component) : Element :=
  let el := createElement (str_or (elementType component) "div") in
  let el := setAttribute DATA_ID (pretty (id component)) el in
  let el := setAttribute DATA_EZUI_CMS (cmsString (ezuiCms component)) el in
  let el :=
    match styles component with
    | Some kvs => foldl (λ e kv, setStyle kv.1 kv.2 e) el kvs
    | None => el
    end in
  match attributes component with
  | Some kvs => foldl (λ e kv, setAttribute kv.1 kv.2 e) el kvs
  | None => el
  end.

(** [component.content && component.content[currentLang]], when truthy. *)
Definition localizedText (lang : string) (component : Component)
  : option string :=
  match content component ≫= (.!! lang) with
  | Some s => if truthy s then Some s else None
  | None => None
  end.

Fixpoint buildElement (fuel : nat) (components : list Component)
    (lang : string) (component : Component) : option Element :=
  match fuel with
  | O => None
  | S n =>
    let el := stampElement component in
    let children := childrenOf components component in
    if decide (length children = 0%nat) then
      Some (match localizedText lang component with
            | Some s => setTextContent s el
            | None => el
            end)
    else
      ks ← mapM (buildElement n components lang) children;
      Some (appendChildren ks el)
  end.

(** ** Queries on the rendered tree *)

(** The values of the identity attribute in document order:
    [querySelectorAll('[data-id]')] below one element. *)
Fixpoint addressable (el : Element) : list string :=
  option_list (dataId el) ++ (kids el ≫= addressable).

(** Number of elements of a subtree. *)
Fixpoint nodeCount (el : Element) : nat :=
  S (sum_list (nodeCount <$> kids el)).

(** [el.querySelector('[data-id]')] finds something. *)
Definition hasAddressableDescendant (el : Element) : bool :=
  bool_decide (kids el ≫= addressable ≠ []).

Section first_match.
Context (g : Element → option Element).

(** Rewrites the first element of a list on which [g] succeeds. *)
Fixpoint updateFirstOf (l : list Element) : option (list Element) :=
  match l with
  | [] => None
  | k :: l' =>
    match g k with
    | Some k' => Some (k' :: l')
    | None => (k ::.) <$> updateFirstOf l'
    end
  end.
End first_match.

(** [document.querySelector(sel)] followed by an in-place update [f] of the
    element it returns: the first match in document order (an element before
    its descendants, siblings left to right). [None] when nothing matches. *)
Fixpoint updateFirst (p : Element → bool) (f : Element → Element)
    (el : Element) : option Element :=
  if p el then Some (f el)
  else
    ks ← updateFirstOf (updateFirst p f) (kids el);
    Some (mkElement (tag el) (attrs el) (style el) (selected el) (text el) ks).

(** The selector [[data-id="${id}"]]. *)
Definition matchesId (i : Z) (el : Element) : bool :=
  bool_decide (dataId el = Some (pretty i)).

(** Removes the class ezui-selected everywhere below (and at) an element. *)
Fixpoint clearSelected (el : Element) : Element :=
  mkElement (tag el) (attrs el) (style el) false (text el)
            (clearSelected <$> kids el).

(** ** Page state *)

(** Page to host messages. *)
Inductive HostMessage :=
| EzuiReady (elementsCount : nat) (language : string).

Record State := mkState {
  components : list Component;   (* componentsData.components *)
  currentLang : string;
  dom : list Element;            (* children of the #root container *)
  outbox : list HostMessage      (* window.parent.postMessage, oldest first *)
}.

Definition setDom (d : list Element) (s : State) : State :=
  mkState (components s) (currentLang s) d (outbox s).

Definition setComponents (cs : list Component) (s : State) : State :=
  mkState cs (currentLang s) (dom s) (outbox s).

Definition post (m : HostMessage) (s : State) : State :=
  mkState (components s) (currentLang s) (dom s) (outbox s ++ [m]).

(** ** [buildDOM] (lines 212-231) *)

Definition isRoot (c : Component) : Prop := parentId c = None.

#[global] Instance isRoot_dec c : Decision (isRoot c).
Proof. unfold isRoot. apply _. Defined.

(** [componentsData.components.find(c => c.parentId === null)]. *)
Definition rootComponent (cs : list Component) : option Component :=
  snd <$> list_find isRoot cs.

(** The tree that [buildDOM] leaves in the container. *)
Definition render (fuel : nat) (cs : list Component) (lang : string)
  : option (list Element) :=
  match rootComponent cs with
  | None => Some []
  | Some r => el ← buildElement fuel cs lang r; Some [el]
  end.

Definition buildDOM (fuel : nat) (s : State) : option State :=
  d ← render fuel (components s) (currentLang s);
  Some (setDom d s).

(** ** Mutation operations (lines 394-465) *)

Definition updateDom (p : Element → bool) (f : Element → Element)
    (s : State) : State :=
  match updateFirstOf (updateFirst p f) (dom s) with
  | Some d => setDom d s
  | None => s
  end.

Definition updateContent (i : Z) (newContent : string) (s : State) : State :=
  updateDom (matchesId i)
    (λ el, if hasAddressableDescendant el then el
           else setTextContent newContent el) s.

Definition updateStyle (i : Z) (styleKey value : string) (s : State) : State :=
  updateDom (matchesId i) (setStyle styleKey value) s.

Definition clearHighlight (s : State) : State :=
  setDom (clearSelected <$> dom s) s.

Definition highlightElement (i : Z) (s : State) : State :=
  updateDom (matchesId i) (setSelected true) (clearHighlight s).

Definition reorderComponent (fuel : nat) (i newOrder : Z) (s : State)
  : option State :=
  match list_find (λ c, id c = i) (components s) with
  | None => Some s
  | Some (k, comp) =>
    buildDOM fuel (setComponents (<[k := set_order newOrder comp]> (components s)) s)
  end.

Definition addComponent (fuel : nat) (newComp : Component) (s : State)
  : option State :=
  buildDOM fuel (setComponents (components s ++ [newComp]) s).

(** The local recursive closure of [deleteComponent]; [idsToRemove] is the
    array it pushes to. *)
Fixpoint findChildren (fuel : nat) (cs : list Component) (parent : Z)
    (idsToRemove : list Z) : option (list Z) :=
  match fuel with
  | O => None
  | S n =>
    foldl (λ acc c, ids ← acc; findChildren n cs (id c) (ids ++ [id c]))
          (Some idsToRemove) (filter (isChildOf parent) cs)
  end.

Definition deleteComponent (fuel : nat) (i : Z) (s : State) : option State :=
  idsToRemove ← findChildren fuel (components s) i [i];
  buildDOM fuel
    (setComponents (filter (λ c, id c ∉ idsToRemove) (components s)) s).

(** ** Message protocol handler (lines 355-392) *)

Inductive Command :=
| UpdateContent (i : Z) (newContent : string)
| UpdateStyle (i : Z) (styleKey value : string)
| Highlight (i : Z)
| ClearHighlight
| Reorder (i : Z) (newOrder : Z)
| AddComponent (newComp : Component)
| DeleteComponent (i : Z)
| Rebuild (replacement : option (list Component))
| OtherCommand.                    (* any other [type] *)

Record MessageEvent := mkMessage {
  source : option string;         (* e.data?.source *)
  command : Command               (* e.data.type with e.data.data *)
}.

Definition VISUAL_EDITOR : string := "visual-editor".

Definition dispatch (fuel : nat) (cmd : Command) (s : State) : option State :=
  match cmd with
  | UpdateContent i c => Some (updateContent i c s)
  | UpdateStyle i k v => Some (updateStyle i k v s)
  | Highlight i => Some (highlightElement i s)
  | ClearHighlight => Some (clearHighlight s)
  | Reorder i n => reorderComponent fuel i n s
  | AddComponent c => addComponent fuel c s
  | DeleteComponent i => deleteComponent fuel i s
  | Rebuild r =>
    buildDOM fuel (match r with Some cs => setComponents cs s | None => s end)
  | OtherCommand => Some s
  end.

Definition handleMessage (fuel : nat) (e : MessageEvent) (s : State)
  : option State :=
  if decide (source e = Some VISUAL_EDITOR) then dispatch fuel (command e) s
  else Some s.

(** ** Start-up (lines 186-209 and 280-316) *)

Record DataJson := mkDataJson {
  language : option string;
  dataComponents : list Component
}.

Definition enableEditMode (s : State) : State :=
  post (EzuiReady (length (components s)) (currentLang s)) s.

(** [init] once [data.json] was fetched and parsed. *)
Definition init (fuel : nat) (isInIframe : bool) (data : DataJson)
  : option State :=
  s ← buildDOM fuel
        (mkState (dataComponents data) (str_or (language data) "en") [] []);
  Some (if isInIframe then enableEditMode s else s).

(** ** The parent/child relation on ids *)

(** [childId cs p x]: some record of the store has id [x] and parent [p]. *)
Definition childId (cs : list Component) (p x : Z) : Prop :=
  ∃ c, c ∈ cs ∧ parentId c = Some p ∧ id c = x.

(** Proper descendants: one or more child steps. *)
Definition descendantId (cs : list Component) : relation Z := tc (childId cs).

(** No id is below itself. *)
Definition acyclic (cs : list Component) : Prop :=
  ∀ x, ¬ descendantId cs x x.

(** The store invariant of the data model: no two records share an id. *)
Definition uniqueIds (cs : list Component) : Prop := NoDup (id <$> cs).

(** Nothing at or below [x] lies on a parent cycle. *)
Definition cycleFree (cs : list Component) (x : Z) : Prop :=
  ∀ y, rtc (childId cs) x y → ¬ descendantId cs y y.

(** [descendantOf cs i c]: the record [c] of the store is a child of [i] or
    of one of the ids below [i]. *)
Definition descendantOf (cs : list Component) (i : Z) (c : Component) : Prop :=
  c ∈ cs ∧ ∃ p, parentId c = Some p ∧ rtc (childId cs) i p.

(** The ids on the call stack of a recursion that has reached [cur]: they
    are distinct ids of the store, so there are at most [length cs]. *)
Definition pathTo (cs : list Component) (path : list Z) (cur : Z) : Prop :=
  cycleFree cs cur ∧ NoDup path ∧ path ⊆ id <$> cs ∧
  ∀ x, x ∈ path → rtc (childId cs) x cur.

(** A store is acyclic as soon as some rank grows from every parent id to
    the ids of its children; used to check concrete stores. *)
Definition rankedBy (rank : Z → nat) (cs : list Component) : bool :=
  forallb (λ c, match parentId c with
                | Some p => bool_decide (rank p < rank (id c))%nat
                | None => true
                end) cs.

(** ** What is rendered *)

(** No record overwrites the identity attribute through [attributes]. *)
Definition keepsIdentity (c : Component) : Prop :=
  ∀ kvs, attributes c = Some kvs → DATA_ID ∉ (lower ∘ fst) <$> kvs.

(** [before key l a b]: [a] is rendered before [b] by a stable sort of [l]
    on [key]: its key is smaller, or the keys are equal and [a] stands before
    [b] in [l]. *)
Definition before {A : Type} (key : A → Z) (l : list A) (a b : A) : Prop :=
  key a < key b ∨ (key a = key b ∧ [a; b] `sublist_of` l).

(** The records on which [buildElement] is entered, in call order: the call
    on a record creates one element, then the calls on its sorted children
    follow. The elements of the returned tree correspond to this list one to
    one, in document order ([buildElement_rendered]). *)
Fixpoint renderedRecords (fuel : nat) (cs : list Component) (c : Component)
  : option (list Component) :=
  match fuel with
  | O => None
  | S n =>
    trs ← mapM (renderedRecords n cs) (childrenOf cs c);
    Some (c :: concat trs)
  end.

(** The value of the identity attribute that [stampElement] leaves. *)
Definition stampedId (c : Component) : string :=
  default "" (dataId (stampElement c)).

(** The rendered records of [c]: records of the store with pairwise distinct
    ids, which are the id of [c] and the ids below it. *)
Definition subtreeOf (cs : list Component) (c : Component)
    (tr : list Component) : Prop :=
  (∀ c', c' ∈ tr → c' ∈ cs) ∧ NoDup (id <$> tr) ∧
  ∀ x, x ∈ id <$> tr ↔ rtc (childId cs) (id c) x.

(** The text assigned to each element, in document order. *)
Fixpoint liveText (el : Element) : list (option string) :=
  text el :: (kids el ≫= liveText).

(** The structure of an element: its tag, its attributes and its children,
    without what the pure-DOM commands edit (inline style, selection class,
    text). *)
Fixpoint skeleton (el : Element) : Element :=
  mkElement (tag el) (attrs el) ∅ false None (skeleton <$> kids el).

(** Every element of the subtree carries an identity attribute. *)
Fixpoint allStamped (el : Element) : bool :=
  bool_decide (is_Some (dataId el)) && forallb allStamped (kids el).

(** ** Kinds of commands and reachable states *)

(** The commands that go through [buildDOM]. *)
Definition structural (cmd : Command) : Prop :=
  match cmd with
  | Reorder _ _ | AddComponent _ | DeleteComponent _ | Rebuild _ => True
  | _ => False
  end.

(** The commands that only touch the live tree. *)
Definition pureDom (cmd : Command) : Prop :=
  match cmd with
  | UpdateContent _ _ | UpdateStyle _ _ _ | Highlight _ | ClearHighlight => True
  | _ => False
  end.

(** A [reorder] whose id is not in the store. *)
Definition targetMissing (cmd : Command) (s : State) : Prop :=
  match cmd with
  | Reorder i _ => i ∉ id <$> components s
  | _ => False
  end.

#[global] Instance structural_dec cmd : Decision (structural cmd).
Proof. destruct cmd; apply _. Defined.

#[global] Instance pureDom_dec cmd : Decision (pureDom cmd).
Proof. destruct cmd; apply _. Defined.

#[global] Instance targetMissing_dec cmd s : Decision (targetMissing cmd s).
Proof. destruct cmd; apply _. Defined.

(** The store that a structural command leaves has unique ids, and a
    deletion does not start on a parent cycle. *)
Definition admissible (cmd : Command) (s : State) : Prop :=
  match cmd with
  | AddComponent c => uniqueIds (components s ++ [c])
  | Rebuild (Some cs) => uniqueIds cs
  | DeleteComponent i =>
    uniqueIds (components s) ∧ cycleFree (components s) i
  | _ => uniqueIds (components s)
  end.

Definition fromHost (cmd : Command) : MessageEvent :=
  mkMessage (Some VISUAL_EDITOR) cmd.

(** The tree that a pure-DOM command leaves, computed from the tree alone. *)
Definition liveEdit (cmd : Command) (d : list Element) : list Element :=
  dom (default (mkState [] "" d []) (dispatch 0 cmd (mkState [] "" d []))).

(** The states that the page reaches: after [init], and after each handled
    message. *)
Inductive reachable (fuel : nat) : State → Prop :=
| reachable_init isInIframe data s :
    init fuel isInIframe data = Some s → reachable fuel s
| reachable_message e s s' :
    reachable fuel s → handleMessage fuel e s = Some s' → reachable fuel s'.

(** The live tree has the structure of the tree built from the store. *)
Definition inSync (fuel : nat) (s : State) : Prop :=
  ∃ d, render fuel (components s) (currentLang s) = Some d ∧
       skeleton <$> d = skeleton <$> dom s.

(** ** Example stores *)

Definition mkRec (i : Z) (p : option Z) (o : option Z) : Component :=
  mkComponent i p o None None None None None.

(** Three siblings A (id 1, order 2), B (id 2, order 1), C (id 3, order 1)
    under a parent P (id 0), in this list order. *)
Definition siblingsParent : Component := mkRec 0 None None.
Definition siblingsStore : list Component :=
  [siblingsParent; mkRec 1 (Some 0) (Some 2); mkRec 2 (Some 0) (Some 1);
   mkRec 3 (Some 0) (Some 1)].

(** root (0) -> A (1) -> B (2) -> C (3) and root -> D (4). *)
Definition chainStore : list Component :=
  [mkRec 0 None None; mkRec 1 (Some 0) None; mkRec 2 (Some 1) None;
   mkRec 3 (Some 2) None; mkRec 4 (Some 0) None].

(** A heading (id 0) that has content of its own and one child (id 1). *)
Definition headingStore : list Component :=
  [mkComponent 0 None None (Some "h1") (Some {["en" := "Title"]}) None None None;
   mkComponent 1 (Some 0) None (Some "span") (Some {["en" := "Hi"]}) None None
               None].

(** Two records without a parent (ids 0 and 5), each with one child. *)
Definition twoRootsStore : list Component :=
  [mkRec 1 (Some 0) None; mkRec 0 None None; mkRec 5 None None;
   mkRec 6 (Some 5) None].

(** A valid one-record store whose record sets [data-id] through
    [attributes]. *)
Definition overrideStore : list Component :=
  [mkComponent 1 None None None None None (Some [("data-id", "7")]) None].

(** A root (id 0) with one child (id 1), and a record (id 7) whose parent
    (id 99) is not in the store. *)
Definition orphanStore : list Component :=
  [mkRec 0 None None; mkRec 1 (Some 0) None; mkRec 7 (Some 99) None].

(** ** Further queries on the live tree *)

Section first_result.
Context (g : Element → option Element).

(** The first result of [g] along a list of elements. *)
Fixpoint firstOf (l : list Element) : option Element :=
  match l with
  | [] => None
  | k :: l' =>
    match g k with
    | Some r => Some r
    | None => firstOf l'
    end
  end.
End first_result.

(** [el.querySelector(sel)] extended to [el] itself: the first element of
    the subtree, in document order, that satisfies [p]. *)
Fixpoint querySelector (p : Element → bool) (el : Element) : option Element :=
  if p el then Some el else firstOf (querySelector p) (kids el).

(** [document.querySelector(sel)]. *)
Definition querySelectorIn (p : Element → bool) (d : list Element)
  : option Element :=
  firstOf (querySelector p) d.

(** The identity attributes of the elements that carry the class
    ezui-selected, in document order. *)
Fixpoint selectedIds (el : Element) : list (option string) :=
  (if selected el then [dataId el] else []) ++ (kids el ≫= selectedIds).

(** The page that [init] builds from [chainStore] inside an editor. *)
Definition chainPage : State :=
  default (mkState chainStore "en" [] [])
          (init 6 true (mkDataJson None chainStore)).

(** Two records with the same id and the same parent. *)
Definition sameLinks (c c' : Component) : Prop :=
  id c = id c' ∧ parentId c = parentId c'.

(** The handler run on the messages of a queue, in arrival order. *)
Definition handleMessages (fuel : nat) (es : list MessageEvent) (s : State)
  : option State :=
  foldl (λ acc e, s' ← acc; handleMessage fuel e s') (Some s) es.

(** A root (id 0), its child (id 1), and a second record of id 1 below that
    id: the id 1 is its own descendant. *)
Definition loopStore : list Component :=
  [mkRec 0 None None; mkRec 1 (Some 0) None; mkRec 1 (Some 1) None].

(** A root (id 0) next to two records (ids 5 and 6) that are each other's
    parent. *)
Definition detachedCycleStore : list Component :=
  [mkRec 0 None None; mkRec 5 (Some 6) None; mkRec 6 (Some 5) None].

(** ** Clicks in edit mode (lines 319-352) *)

Definition code (a : Ascii.ascii) : nat := Ascii.nat_of_ascii a.

(** The white space and line terminators that [parseInt] skips, in the UTF-8
    encoding of the string: the ASCII ones on one byte, U+00A0 on two bytes,
    U+1680, U+2000 to U+200A, U+2028, U+2029, U+202F, U+205F, U+3000 and
    U+FEFF on three. *)
Definition isSpace1 (c : nat) : bool :=
  bool_decide (c = 9 ∨ c = 10 ∨ c = 11 ∨ c = 12 ∨ c = 13 ∨ c = 32)%nat.

Definition isSpace2 (c1 c2 : nat) : bool :=
  bool_decide (c1 = 194 ∧ c2 = 160)%nat.

Definition isSpace3 (c1 c2 c3 : nat) : bool :=
  bool_decide
    ((c1 = 225 ∧ c2 = 154 ∧ c3 = 128) ∨
     (c1 = 226 ∧ c2 = 128 ∧ (128 ≤ c3 ≤ 138 ∨ c3 = 168 ∨ c3 = 169 ∨ c3 = 175)) ∨
     (c1 = 226 ∧ c2 = 129 ∧ c3 = 159) ∨
     (c1 = 227 ∧ c2 = 128 ∧ c3 = 128) ∨
     (c1 = 239 ∧ c2 = 187 ∧ c3 = 191))%nat.

Fixpoint trimStart (s : string) : string :=
  match s with
  | EmptyString => s
  | String a s1 =>
    if isSpace1 (code a) then trimStart s1
    else
      match s1 with
      | EmptyString => s
      | String b s2 =>
        if isSpace2 (code a) (code b) then trimStart s2
        else
          match s2 with
          | EmptyString => s
          | String c s3 =>
            if isSpace3 (code a) (code b) (code c) then trimStart s3 else s
          end
      end
  end.

(** The value of a digit in a radix (10 or 16), if it is one. *)
Definition digitOf (radix : N) (a : Ascii.ascii) : option N :=
  let c := N.of_nat (code a) in
  if bool_decide (48 ≤ c ≤ 57)%N then Some (c - 48)%N
  else if bool_decide (radix = 16 ∧ 97 ≤ c ≤ 102)%N then Some (c - 87)%N
  else if bool_decide (radix = 16 ∧ 65 ≤ c ≤ 70)%N then Some (c - 55)%N
  else None.

(** The value of the longest prefix of digits; [acc] is [None] until a digit
    was read. *)
Fixpoint parseDigits (radix : N) (s : string) (acc : option N) : option N :=
  match s with
  | EmptyString => acc
  | String a s' =>
    match digitOf radix a with
    | Some d => parseDigits radix s' (Some (radix * default 0 acc + d))%N
    | None => acc
    end
  end.

(** [parseInt(s)] with no radix, on integers of any size; [None] is NaN. *)
Definition parseInt (s : string) : option Z :=
  let s := trimStart s in
  let '(negative, s) :=
    match s with
    | String a s' =>
      if decide (code a = 45)%nat then (true, s')          (* - *)
      else if decide (code a = 43)%nat then (false, s')    (* + *)
      else (false, s)
    | EmptyString => (false, s)
    end in
  let '(radix, s) :=
    match s with
    | String a (String b s') =>
      if decide (code a = 48 ∧ (code b = 120 ∨ code b = 88))%nat  (* 0x, 0X *)
      then (16%N, s') else (10%N, s)
    | _ => (10%N, s)
    end in
  (λ n, if negative : bool then - Z.of_N n else Z.of_N n) <$>
    parseDigits radix s None.

(** The elements from the top of the page down to the event target, which is
    given by the child positions that lead to it. *)
Fixpoint elementsAlong (path : list nat) (d : list Element) : list Element :=
  match path with
  | [] => []
  | j :: rest =>
    match d !! j with
    | Some el => el :: elementsAlong rest (kids el)
    | None => []
    end
  end.

(** [el.dataset?.id] is truthy. *)
Definition identified (el : Element) : bool :=
  match dataId el with
  | Some v => truthy v
  | None => false
  end.

(** The walk [while (el && !el.dataset?.id) el = el.parentElement]: the
    number of elements of the chain down to the nearest identified one. *)
Fixpoint nearestIdentified (chain : list Element) : option nat :=
  match chain with
  | [] => None
  | el :: rest =>
    match nearestIdentified rest with
    | Some k => Some (S k)
    | None => if identified el then Some 1%nat else None
    end
  end.

(** In-place update of the element at a position of the page. *)
Fixpoint updateAt (path : list nat) (f : Element → Element)
    (d : list Element) : list Element :=
  match path with
  | [] => d
  | [j] => alter f j d
  | j :: rest =>
    alter (λ el, mkElement (tag el) (attrs el) (style el) (selected el)
                           (text el) (updateAt rest f (kids el))) j d
  end.

(** [el.textContent]: the text of the element and of its descendants, in
    document order. *)
Fixpoint textContent (el : Element) : string :=
  default "" (text el) +:+
  foldr (λ k acc, textContent k +:+ acc) "" (kids el).

(** The data of the element-selected message. *)
Record ElementSelected := mkElementSelected {
  selectedId : option Z;              (* parseInt(el.dataset.id), None is NaN *)
  selectedCms : string;
  selectedTag : string;
  selectedText : string;
  selectedParentId : option (option Z);  (* undefined, or null or a number *)
  selectedOrder : option Z               (* undefined or a number *)
}.

(** [handleClick] on a target inside the page: the state after, and the
    message posted to the host, if any. A target that is not in the page has
    no identified ancestor. *)
Definition handleClick (path : list nat) (s : State)
  : State * option ElementSelected :=
  let chain := elementsAlong path (dom s) in
  if decide (length chain = length path) then
    match nearestIdentified chain with
    | None => (s, None)
    | Some k =>
      match chain !! pred k with
      | None => (s, None)
      | Some el =>
        let s' := setDom (updateAt (take k path) (setSelected true)
                                   (clearSelected <$> dom s)) s in
        let componentId := parseInt (default "" (dataId el)) in
        let component :=
          componentId ≫= λ i,
            snd <$> list_find (λ c, id c = i) (components s) in
        (s', Some (mkElementSelected componentId
                     (default "" (attrs el !! DATA_EZUI_CMS))
                     (lower (tag el)) (textContent el)
                     (parentId <$> component) (component ≫= order)))
      end
    end
  else (s, None).

(** ** The static variant of the script (lines 7-171)

    The page is static HTML whose elements already carry their identity
    attributes; [data.json] only restyles and retexts them. The variant keeps
    no state besides the page itself. *)
Module Static.

(** Lines 44-63: what the loader does to the element found for a record. *)
Definition applyComponent (lang : string) (comp : Component) (el : Element)
  : Element :=
  let el :=
    match styles comp with
    | Some kvs => foldl (λ e kv, setStyle kv.1 kv.2 e) el kvs
    | None => el
    end in
  let el :=
    match localizedText lang comp with
    | Some s => if hasAddressableDescendant el then el else setTextContent s el
    | None => el
    end in
  match attributes comp with
  | Some kvs => foldl (λ e kv, setAttribute kv.1 kv.2 e) el kvs
  | None => el
  end.

(** One round of the [forEach] (lines 40-64): a record whose id is on no
    element is skipped. *)
Definition applyTo (lang : string) (d : list Element) (comp : Component)
  : list Element :=
  default d (updateFirstOf (updateFirst (matchesId (id comp))
                                        (applyComponent lang comp)) d).

(** [loadAndApplyFromJSON] once [data.json] was fetched and parsed: the
    language in force and the page. *)
Definition loadAndApplyFromJSON (language : option string)
    (components : option (list Component)) (d : list Element)
  : string * list Element :=
  let currentLang := str_or language "en" in
  (currentLang,
   match components with
   | None => d
   | Some cs => foldl (applyTo currentLang) d cs
   end).

(** The [elementsCount] of the ready message (line 103). *)
Definition enableEditMode (d : list Element) : nat :=
  length (d ≫= addressable).

(** [init]: the page, and the [elementsCount] posted when in an editor. *)
Definition init (isInIframe : bool) (language : option string)
    (components : option (list Component)) (d : list Element)
  : list Element * option nat :=
  let d' := (loadAndApplyFromJSON language components d).2 in
  (d', if isInIframe then Some (enableEditMode d') else None).

(** [handleMessage] (lines 138-163). The element is looked up before the
    [switch], through [data.id]: a message without a [data] object
    ([hasData] false, possible for the commands that carry no payload) stops
    the handler there, and so does a target that is not on the page, except
    for [clear-highlight]. *)
Definition handleMessage (e : MessageEvent) (hasData : bool)
    (d : list Element) : list Element :=
  if decide (source e = Some VISUAL_EDITOR) then
    match command e with
    | UpdateContent i newContent =>
      default d (updateFirstOf (updateFirst (matchesId i)
        (λ el, if hasAddressableDescendant el then el
               else setTextContent newContent el)) d)
    | UpdateStyle i styleKey value =>
      default d (updateFirstOf (updateFirst (matchesId i)
                                            (setStyle styleKey value)) d)
    | Highlight i =>
      match querySelectorIn (matchesId i) d with
      | Some _ =>
        default d (updateFirstOf (updateFirst (matchesId i) (setSelected true))
                                 (clearSelected <$> d))
      | None => d
      end
    | ClearHighlight => if hasData then clearSelected <$> d else d
    | _ => d
    end
  else d.

End Static.

(** The elements of a subtree, in document order. *)
Fixpoint subElements (el : Element) : list Element :=
  el :: (kids el ≫= subElements).

(** A static page: a container (id 0) with a heading (id 1), whose text is in
    a [span] without identity attribute, and a paragraph (id 2). *)
Definition staticPage : list Element :=
  [mkElement "div" {[DATA_ID := "0"]} ∅ false None
     [mkElement "h1" {[DATA_ID := "1"]} ∅ false None
        [mkElement "span" ∅ ∅ false (Some "old") []];
      mkElement "p" {[DATA_ID := "2"]} ∅ false (Some "text") []]].

(** Records for the heading and the paragraph, and one (id 9) that has no
    element. *)
Definition staticStore : list Component :=
  [mkComponent 1 (Some 0) None None (Some {["en" := "Title"]})
     (Some [("color", "red")]) None None;
   mkComponent 9 (Some 0) None None (Some {["en" := "lost"]}) None None None;
   mkComponent 2 (Some 0) None None None None
     (Some [("title", "hint")]) None].

(** The live-edit messages on which the static handler stops before its
    [switch] while the dynamic one acts: a [highlight] whose target is not on
    the page, and a [clear-highlight] without a [data] object. *)
Definition staticStopsEarly (cmd : Command) (hasData : bool)
    (d : list Element) : bool :=
  match cmd with
  | Highlight i => bool_decide (pretty i ∉ d ≫= addressable)
  | ClearHighlight => negb hasData
  | _ => false
  end.

(** * Properties of [sort] *)

Lemma StronglySorted_mono {A} (R1 R2 : relation A) l :
  (∀ a b, R1 a b → R2 a b) → StronglySorted R1 l → StronglySorted R2 l.
Proof.
  intros HR. induction 1 as [|a l _ IH Hall]; constructor; [done|].
  eapply Forall_impl; [exact Hall|]. intros b. apply HR.
Qed.

Section sort_by_key.
Context {A : Type} (key : A → Z).

#[local] Abbreviation cmp := (λ a b : A, key a - key b).

Lemma sort_insert_perm x l : sort_insert cmp x l ≡ₚ x :: l.
Proof.
  induction l as [|y l IH]; simpl; [done|].
  case_decide; [done|]. rewrite IH. apply Permutation_swap.
Qed.

Lemma sort_perm l : sort cmp l ≡ₚ l.
Proof.
  induction l as [|x l IH]; simpl; [done|].
  by rewrite sort_insert_perm, IH.
Qed.

Lemma before_cons l x a b : before key l a b → before key (x :: l) a b.
Proof.
  intros [?|[? ?]]; [by left|right; split; [done|by apply sublist_cons]].
Qed.

Lemma before_key l a b : before key l a b → key a ≤ key b.
Proof. intros [?|[? ?]]; lia. Qed.

Lemma sort_insert_sorted l0 x t :
  (∀ z, z ∈ t → z ∈ l0) →
  StronglySorted (before key (x :: l0)) t →
  StronglySorted (before key (x :: l0)) (sort_insert cmp x t).
Proof.
  induction t as [|y t IH]; simpl; intros Hin Hs.
  - repeat constructor.
  - apply StronglySorted_cons in Hs as [Hy Hs].
    case_decide as Hxy.
    + apply StronglySorted_cons; split.
      * apply Forall_forall. intros z Hz.
        assert (key y ≤ key z) as Hyz.
        { apply elem_of_cons in Hz as [->|Hz]; [lia|].
          rewrite Forall_forall in Hy. eapply before_key, Hy, Hz. }
        destruct (decide (key x = key z)) as [Heq|Hne]; [|left; lia].
        right; split; [done|].
        apply sublist_skip, singleton_sublist_l. by apply Hin.
      * by apply StronglySorted_cons.
    + apply StronglySorted_cons; split.
      * rewrite sort_insert_perm. constructor; [left; lia|done].
      * apply IH; [|done]. intros z Hz. apply Hin. by right.
Qed.

(** The result of [sort] is ordered by key, equal keys in input order. *)
Lemma sort_sorted l : StronglySorted (before key l) (sort cmp l).
Proof.
  induction l as [|x l IH]; simpl; [constructor|].
  apply sort_insert_sorted.
  - intros z. by rewrite sort_perm.
  - eapply StronglySorted_mono, IH. intros a b. apply before_cons.
Qed.

(** Stability: the elements of any one key keep their input order. *)
Lemma sort_insert_stable k x l :
  filter (λ a, key a = k) (sort_insert cmp x l)
  = filter (λ a, key a = k) (x :: l).
Proof.
  induction l as [|y l IH]; simpl; [done|].
  case_decide as Hxy; [done|].
  rewrite (filter_cons _ y (sort_insert cmp x l)), IH.
  rewrite !filter_cons. repeat case_decide; try done; lia.
Qed.

Lemma sort_stable k l :
  filter (λ a, key a = k) (sort cmp l) = filter (λ a, key a = k) l.
Proof.
  induction l as [|x l IH]; simpl; [done|].
  rewrite sort_insert_stable, !filter_cons. by rewrite IH.
Qed.

Lemma sort_ascending l :
  StronglySorted (λ a b, key a ≤ key b) (sort cmp l).
Proof.
  eapply StronglySorted_mono, sort_sorted. intros a b. apply before_key.
Qed.

(** Ascending keys and stability determine the result: any list with the
    two properties that the language standard asks of [sort] is the one
    computed here. *)
Lemma stable_sort_unique l1 : ∀ l2,
  StronglySorted (λ a b, key a ≤ key b) l1 →
  StronglySorted (λ a b, key a ≤ key b) l2 →
  (∀ k, filter (λ a, key a = k) l1 = filter (λ a, key a = k) l2) →
  l1 = l2.
Proof.
  assert (∀ a l b m,
    StronglySorted (λ a b, key a ≤ key b) (a :: l) →
    (∀ k, filter (λ a, key a = k) (a :: l) = filter (λ a, key a = k) (b :: m)) →
    key a ≤ key b) as Hle.
  { intros a l b m Hs Hf. specialize (Hf (key b)).
    rewrite (filter_cons_True _ b) in Hf by done.
    assert (b ∈ a :: l) as Hb.
    { eapply (list_elem_of_filter (λ a, key a = key b)). rewrite Hf. by left. }
    apply StronglySorted_cons in Hs as [Hall _].
    apply elem_of_cons in Hb as [->|Hb]; [lia|].
    rewrite Forall_forall in Hall. by apply Hall. }
  induction l1 as [|a l1 IH]; intros [|b l2] Hs1 Hs2 Hf.
  - done.
  - specialize (Hf (key b)). by rewrite filter_cons_True in Hf.
  - specialize (Hf (key a)). by rewrite filter_cons_True in Hf.
  - assert (key a = key b) as Hab.
    { pose proof (Hle _ _ _ _ Hs1 Hf).
      pose proof (Hle _ _ _ _ Hs2 (λ k, eq_sym (Hf k))). lia. }
    assert (a = b) as <-.
    { specialize (Hf (key a)).
      rewrite !filter_cons_True in Hf by done. by injection Hf. }
    f_equal. apply StronglySorted_cons in Hs1 as [_ Hs1].
    apply StronglySorted_cons in Hs2 as [_ Hs2].
    apply IH; [done..|]. intros k. specialize (Hf k).
    rewrite !filter_cons in Hf. case_decide; [by injection Hf|done].
Qed.

Lemma sort_unique l l' :
  StronglySorted (λ a b, key a ≤ key b) l' →
  (∀ k, filter (λ a, key a = k) l' = filter (λ a, key a = k) l) →
  l' = sort cmp l.
Proof.
  intros Hs Hf. apply stable_sort_unique; [done|apply sort_ascending|].
  intros k. by rewrite sort_stable.
Qed.
End sort_by_key.

(** * The tree resolver and the parent/child relation *)

Lemma elem_of_childrenOf cs c ch :
  ch ∈ childrenOf cs c ↔ ch ∈ cs ∧ parentId ch = Some (id c).
Proof.
  unfold childrenOf. rewrite (sort_perm orderKey), list_elem_of_filter.
  unfold isChildOf. tauto.
Qed.

Lemma childrenOf_childId cs c ch :
  ch ∈ childrenOf cs c → childId cs (id c) (id ch).
Proof. intros [? ?]%elem_of_childrenOf. by exists ch. Qed.

Lemma acyclic_cycleFree cs x : acyclic cs → cycleFree cs x.
Proof. intros Hac y _. apply Hac. Qed.

Lemma cycleFree_child cs x y : cycleFree cs x → childId cs x y → cycleFree cs y.
Proof. intros Hx Hxy z Hyz. apply Hx. by eapply rtc_l. Qed.

Lemma pathTo_nil cs x : cycleFree cs x → pathTo cs [] x.
Proof.
  intros ?. split_and!; [done|constructor|set_solver|].
  intros ? []%elem_of_nil.
Qed.

Lemma pathTo_length cs path cur :
  pathTo cs path cur → (length path ≤ length cs)%nat.
Proof.
  intros (_ & Hnd & Hsub & _).
  rewrite <-(length_fmap id cs). apply submseteq_length.
  by apply NoDup_submseteq.
Qed.

Lemma pathTo_child cs path cur ch :
  pathTo cs path cur → ch ∈ cs → parentId ch = Some cur →
  pathTo cs (id ch :: path) (id ch).
Proof.
  intros (Hcf & Hnd & Hsub & Hreach) Hin Hpar.
  assert (childId cs cur (id ch)) as Hstep by by exists ch.
  split_and!.
  - by eapply cycleFree_child.
  - constructor; [|done]. intros Hp.
    apply (Hcf (id ch)); [by apply rtc_once|].
    eapply tc_rtc_l; [by apply Hreach|by apply tc_once].
  - intros x [->|Hx]%elem_of_cons; [|by apply Hsub].
    apply list_elem_of_fmap. by exists ch.
  - intros x [->|Hx]%elem_of_cons; [done|].
    eapply rtc_r; [by apply Hreach|done].
Qed.

(** A recursion below [cur] with this much fuel left has not run out. *)
Lemma pathTo_fuel cs path cur fuel :
  pathTo cs path cur → (length cs < fuel + length path)%nat →
  ∃ n, fuel = S n.
Proof.
  intros Hp%pathTo_length ?. destruct fuel; [lia|by eexists].
Qed.

(** * [buildElement] *)

Lemma stampElement_kids c : kids (stampElement c) = [].
Proof.
  unfold stampElement.
  assert (∀ kvs el, kids (foldl (λ e kv, setStyle kv.1 kv.2 e) el kvs) = kids el)
    as Hst by (induction kvs as [|? ? IH]; intros; simpl; [done|by rewrite IH]).
  assert (∀ kvs el, kids (foldl (λ e kv, setAttribute kv.1 kv.2 e) el kvs) = kids el)
    as Hat by (induction kvs as [|? ? IH]; intros; simpl; [done|by rewrite IH]).
  destruct (attributes c), (styles c); rewrite ?Hat, ?Hst; done.
Qed.

Lemma stampElement_text c : text (stampElement c) = None.
Proof.
  unfold stampElement.
  assert (∀ kvs el, text (foldl (λ e kv, setStyle kv.1 kv.2 e) el kvs) = text el)
    as Hst by (induction kvs as [|? ? IH]; intros; simpl; [done|by rewrite IH]).
  assert (∀ kvs el, text (foldl (λ e kv, setAttribute kv.1 kv.2 e) el kvs) = text el)
    as Hat by (induction kvs as [|? ? IH]; intros; simpl; [done|by rewrite IH]).
  destruct (attributes c), (styles c); rewrite ?Hat, ?Hst; done.
Qed.

(** One unfolding of [buildElement], with the leaf test on the list. *)
Lemma buildElement_S n cs lang c :
  buildElement (S n) cs lang c =
    match childrenOf cs c with
    | [] => Some (match localizedText lang c with
                  | Some s => setTextContent s (stampElement c)
                  | None => stampElement c
                  end)
    | children =>
      ks ← mapM (buildElement n cs lang) children;
      Some (appendChildren ks (stampElement c))
    end.
Proof. simpl. destruct (childrenOf cs c); by case_decide. Qed.

(** On a store without a cycle below [c], [buildElement] returns as soon as
    the fuel exceeds the number of records. *)
Lemma buildElement_total_path cs lang fuel : ∀ path c,
  pathTo cs path (id c) → (length cs < fuel + length path)%nat →
  is_Some (buildElement fuel cs lang c).
Proof.
  induction fuel as [|n IH]; intros path c Hp Hlen.
  { destruct (pathTo_fuel _ _ _ _ Hp Hlen); done. }
  rewrite buildElement_S. destruct (childrenOf cs c) as [|ch0 chs] eqn:Hch; [done|].
  assert (is_Some (mapM (buildElement n cs lang) (ch0 :: chs))) as [ks Hks].
  { apply mapM_is_Some, Forall_forall. intros ch Hin.
    rewrite <-Hch in Hin. apply elem_of_childrenOf in Hin as [Hin Hpar].
    apply (IH (id ch :: path)); [by eapply pathTo_child|simpl; lia]. }
  rewrite Hks. done.
Qed.

Lemma buildElement_total cs lang fuel c :
  cycleFree cs (id c) → (length cs < fuel)%nat →
  is_Some (buildElement fuel cs lang c).
Proof.
  intros Hcf Hlen. apply (buildElement_total_path cs lang fuel []).
  - by apply pathTo_nil.
  - simpl. lia.
Qed.

(** What a returned element looks like. *)
Lemma buildElement_Some fuel cs lang c el :
  buildElement fuel cs lang c = Some el →
  ∃ n ks, fuel = S n ∧
    Forall2 (λ ch k, buildElement n cs lang ch = Some k) (childrenOf cs c) ks ∧
    kids el = ks ∧
    attrs el = attrs (stampElement c) ∧
    text el = (if decide (childrenOf cs c = []) then localizedText lang c
               else None).
Proof.
  destruct fuel as [|n]; [done|]. rewrite buildElement_S. intros Hb.
  exists n. destruct (childrenOf cs c) as [|ch0 chs] eqn:Hch.
  - exists []. simplify_eq. split_and!; [done|constructor| | |].
    + destruct (localizedText lang c); simpl; [done|apply stampElement_kids].
    + by destruct (localizedText lang c).
    + destruct (localizedText lang c); simpl; [done|apply stampElement_text].
  - destruct (mapM _ _) as [ks|] eqn:Hks; [|done]. simpl in Hb. simplify_eq.
    exists ks. split_and!; [done|by apply mapM_Some| | |].
    + simpl. by rewrite stampElement_kids.
    + done.
    + simpl. apply stampElement_text.
Qed.

Lemma rankedBy_acyclic rank cs : rankedBy rank cs = true → acyclic cs.
Proof.
  intros Hr.
  assert (∀ x y, descendantId cs x y → (rank x < rank y)%nat) as Hlt.
  { assert (∀ x y, childId cs x y → (rank x < rank y)%nat) as Hstep.
    { intros x y (c & Hin & Hpar & <-).
      unfold rankedBy in Hr. rewrite forallb_forall in Hr.
      apply list_elem_of_In, Hr in Hin. rewrite Hpar in Hin.
      by apply bool_decide_eq_true in Hin. }
    induction 1 as [x y H|x y z H _ IH]; [by apply Hstep|].
    apply Hstep in H. lia. }
  intros x Hx%Hlt. lia.
Qed.

(** The identity attribute survives [stampElement] unless [attributes]
    names it. *)
Lemma stampElement_dataId c :
  keepsIdentity c → dataId (stampElement c) = Some (pretty (id c)).
Proof.
  intros Hk. unfold dataId, stampElement.
  assert (∀ kvs el,
    attrs (foldl (λ e kv, setStyle kv.1 kv.2 e) el kvs) = attrs el) as Hst.
  { induction kvs as [|? ? IH]; intros; simpl; [done|by rewrite IH]. }
  assert (∀ kvs el, DATA_ID ∉ (lower ∘ fst) <$> kvs →
    attrs (foldl (λ e kv, setAttribute kv.1 kv.2 e) el kvs) !! DATA_ID
    = attrs el !! DATA_ID) as Hat.
  { induction kvs as [|[k v] kvs IH]; intros el Hnin; simpl; [done|].
    rewrite fmap_cons, not_elem_of_cons in Hnin. destruct Hnin as [Hne Hnin].
    rewrite IH by done. simpl. by rewrite lookup_insert_ne. }
  assert (∀ el : Element,
    attrs (setAttribute DATA_EZUI_CMS (cmsString (ezuiCms c))
             (setAttribute DATA_ID (pretty (id c)) el)) !! DATA_ID
    = Some (pretty (id c))) as H0.
  { intros el. simpl. rewrite lookup_insert_ne by done.
    apply lookup_insert_eq. }
  destruct (attributes c) as [kvs|] eqn:Ha.
  - rewrite Hat by by apply Hk.
    destruct (styles c); rewrite ?Hst; apply H0.
  - destruct (styles c); rewrite ?Hst; apply H0.
Qed.

Lemma buildElement_dataId fuel cs lang c el :
  buildElement fuel cs lang c = Some el → keepsIdentity c →
  dataId el = Some (pretty (id c)).
Proof.
  intros (n & ks & _ & _ & _ & Hattrs & _)%buildElement_Some Hk.
  unfold dataId. rewrite Hattrs. by apply stampElement_dataId.
Qed.

(** C1. Whenever no parent cycle lies below a record, [buildElement] returns
    an element whose children are the elements built, in this order, from the
    record's direct children ([parentId] equal to its id) sorted by ascending
    [order] (a missing [order] counting as 0), children of equal [order]
    staying in their order of the component list (for each value of [order],
    the children with that value are those of the store, in order); when no
    record overwrites the identity attribute, the children's identity
    attributes are the ids of the sorted children. *)
Theorem buildElement_children_sorted cs lang fuel c :
  cycleFree cs (id c) → (length cs < fuel)%nat →
  ∃ el, buildElement fuel cs lang c = Some el ∧
    Forall2 (λ ch k, buildElement (pred fuel) cs lang ch = Some k)
            (childrenOf cs c) (kids el) ∧
    childrenOf cs c ≡ₚ filter (isChildOf (id c)) cs ∧
    StronglySorted (before orderKey cs) (childrenOf cs c) ∧
    (∀ k, filter (λ a, orderKey a = k) (childrenOf cs c)
          = filter (λ a, orderKey a = k) (filter (isChildOf (id c)) cs)) ∧
    (Forall keepsIdentity cs →
     dataId <$> kids el = (λ ch, Some (pretty (id ch))) <$> childrenOf cs c).
Proof.
  intros Hcf Hlen.
  destruct (buildElement_total cs lang fuel c Hcf Hlen) as [el Hel].
  exists el. split; [done|].
  destruct (buildElement_Some _ _ _ _ _ Hel) as (n & ks & -> & Hks & Hkids & _).
  simpl. subst ks. split_and!.
  - done.
  - apply (sort_perm orderKey).
  - eapply StronglySorted_mono; [|apply (sort_sorted orderKey)].
    intros a b [?|[? Hsub]]; [by left|right; split; [done|]].
    etrans; [exact Hsub|apply sublist_filter].
  - intros k. apply (sort_stable orderKey).
  - intros Hall. rewrite Forall_forall in Hall.
    assert (∀ ch, ch ∈ childrenOf cs c → keepsIdentity ch) as Hkeep.
    { intros ch [? _]%elem_of_childrenOf. by apply Hall. }
    clear Hel. induction Hks as [|ch k chs ks Hb _ IH]; [done|].
    rewrite !fmap_cons. f_equal.
    + eapply buildElement_dataId; [done|]. apply Hkeep. by left.
    + apply IH. intros ? ?. apply Hkeep. by right.
Qed.

(** The siblings of the spec: A (order 2), B (order 1), C (order 1) render
    as B, C, A. *)
Lemma buildElement_children_sorted_siblings :
  cycleFree siblingsStore (id siblingsParent) ∧
  (length siblingsStore < 5)%nat ∧
  ∃ el, buildElement 5 siblingsStore "en" siblingsParent = Some el ∧
        dataId <$> kids el = [Some "2"; Some "3"; Some "1"].
Proof.
  assert (cycleFree siblingsStore (id siblingsParent)) as Hcf.
  { apply acyclic_cycleFree, (rankedBy_acyclic Z.to_nat). reflexivity. }
  assert (length siblingsStore < 5)%nat as Hlen by (simpl; lia).
  split; [exact Hcf|]. split; [exact Hlen|].
  destruct (buildElement_children_sorted siblingsStore "en" 5 siblingsParent
              Hcf Hlen) as (el & Hel & _ & _ & _ & _ & Hids).
  exists el. split; [exact Hel|]. rewrite Hids; [reflexivity|].
  repeat constructor; intros kvs; discriminate.
Defined.

(** C4. An element is given text only when its record has no child in the
    resolved tree, and then only the text that [content] holds for the
    current language; a record with at least one child never has its text
    set, whatever its [content]. *)
Theorem buildElement_text_only_on_leaves cs lang fuel c :
  cycleFree cs (id c) → (length cs < fuel)%nat →
  ∃ el, buildElement fuel cs lang c = Some el ∧
    (childrenOf cs c ≠ [] → text el = None) ∧
    (∀ s, text el = Some s →
       childrenOf cs c = [] ∧ ∃ m, content c = Some m ∧ m !! lang = Some s).
Proof.
  intros Hcf Hlen.
  destruct (buildElement_total cs lang fuel c Hcf Hlen) as [el Hel].
  exists el. split; [done|].
  destruct (buildElement_Some _ _ _ _ _ Hel) as (n & ks & _ & _ & _ & _ & Ht).
  rewrite Ht. case_decide as Hch; split; try done.
  intros s Hs. split; [done|].
  unfold localizedText in Hs.
  destruct (content c) as [m|]; simpl in Hs; [|done].
  exists m. split; [done|].
  destruct (m !! lang) as [s'|]; [|done].
  destruct (truthy s'); by simplify_eq.
Qed.

Lemma buildElement_text_only_on_leaves_heading :
  cycleFree headingStore 0 ∧ (length headingStore < 3)%nat ∧
  ∃ el, buildElement 3 headingStore "en"
          (mkComponent 0 None None (Some "h1") (Some {["en" := "Title"]})
                       None None None) = Some el ∧
        text el = None ∧ text <$> kids el = [Some "Hi"].
Proof.
  assert (cycleFree headingStore 0) as Hcf.
  { apply acyclic_cycleFree, (rankedBy_acyclic Z.to_nat). reflexivity. }
  assert (length headingStore < 3)%nat as Hlen by (simpl; lia).
  split; [exact Hcf|]. split; [exact Hlen|].
  destruct (buildElement_text_only_on_leaves headingStore "en" 3
              (mkComponent 0 None None (Some "h1") (Some {["en" := "Title"]})
                           None None None) Hcf Hlen) as (el & Hel & Hnone & _).
  exists el. split; [exact Hel|]. split.
  - apply Hnone. discriminate.
  - vm_compute in Hel. injection Hel as <-. reflexivity.
Defined.

(** * Unique ids make the parent relation a forest *)

Section forest.
Context (cs : list Component) (Huniq : uniqueIds cs).

#[local] Abbreviation R := (childId cs).

Lemma unique_record c c' : c ∈ cs → c' ∈ cs → id c = id c' → c = c'.
Proof.
  unfold uniqueIds in Huniq. clear -Huniq.
  induction cs as [|a l IH]; intros Hc Hc' Heq; [by apply elem_of_nil in Hc|].
  rewrite fmap_cons in Huniq. apply NoDup_cons in Huniq as [Hnin Hnd].
  apply elem_of_cons in Hc as [->|Hc]; apply elem_of_cons in Hc' as [->|Hc'].
  - done.
  - destruct Hnin. rewrite Heq. by apply list_elem_of_fmap_2.
  - destruct Hnin. rewrite <-Heq. by apply list_elem_of_fmap_2.
  - by apply IH.
Qed.

Lemma unique_parent p p' x : R p x → R p' x → p = p'.
Proof.
  intros (c & Hc & Hp & Hx) (c' & Hc' & Hp' & Hx').
  assert (c = c') as -> by (apply unique_record; congruence).
  congruence.
Qed.

Lemma descendant_last a x : tc R a x → ∃ p, rtc R a p ∧ R p x.
Proof.
  induction 1 as [a x H|a y x H _ (p & Hyp & Hpx)].
  - by exists a.
  - exists p. split; [by eapply rtc_l|done].
Qed.

(** The ancestors of an id form a chain. *)
Lemma ancestors_chain a b x : rtc R a x → rtc R b x → rtc R a b ∨ rtc R b a.
Proof.
  intros Ha. revert b. revert x Ha.
  refine (rtc_ind_r _ a _ _); [|intros p x Hap Hpx IH].
  - intros b Hb. by right.
  - intros b Hb. apply rtc_inv_r in Hb as [->|(p' & Hbp & Hpx')].
    + left. by eapply rtc_r.
    + assert (p' = p) as -> by by eapply unique_parent.
      by apply IH.
Qed.

(** Whatever reaches a cycle lies on it. *)
Lemma cycle_absorbs a y : rtc R a y → tc R y y → rtc R y a.
Proof.
  revert y. refine (rtc_ind_r _ a _ _); [done|intros p y Hap Hpy IH].
  intros Hyy.
  destruct (descendant_last _ _ Hyy) as (p' & Hyp & Hpy').
  assert (p' = p) as -> by by eapply unique_parent.
  etrans; [exact Hyp|]. apply IH.
  eapply tc_rtc_r; [by apply tc_once|done].
Qed.

(** The id of a record without a parent has no ancestor. *)
Lemma root_no_ancestor r a :
  r ∈ cs → parentId r = None → rtc R a (id r) → a = id r.
Proof.
  intros Hr Hnone [->|(p & _ & c & Hc & Hp & Hid)]%rtc_inv_r; [done|].
  assert (c = r) as -> by by apply unique_record.
  congruence.
Qed.

(** Nothing below a record without a parent lies on a cycle. *)
Lemma root_cycleFree r : r ∈ cs → parentId r = None → cycleFree cs (id r).
Proof.
  intros Hr Hnone y Hry Hyy.
  assert (y = id r) as -> by (eapply root_no_ancestor, cycle_absorbs; done).
  apply descendant_last in Hyy as (p & Hp & Hlast).
  assert (rtc R p (id r)) as Hp' by by apply rtc_once.
  apply root_no_ancestor in Hp'; [|done..]. subst p.
  destruct Hlast as (c & Hc & Hpar & Hid).
  assert (c = r) as -> by by apply unique_record.
  congruence.
Qed.

(** Two children of one parent have disjoint subtrees. *)
Lemma siblings_disjoint p a b x :
  cycleFree cs p → a ∈ cs → b ∈ cs →
  parentId a = Some p → parentId b = Some p → id a ≠ id b →
  rtc R (id a) x → rtc R (id b) x → False.
Proof.
  intros Hcf.
  assert (∀ a b, a ∈ cs → b ∈ cs → parentId a = Some p → parentId b = Some p →
                 id a ≠ id b → ¬ rtc R (id a) (id b)) as Hno.
  { clear a b. intros a b Ha Hb Hpa Hpb Hne Hab.
    apply rtc_tc in Hab as [?|Hab]; [done|].
    apply descendant_last in Hab as (p' & Hap & Hlast).
    assert (p' = p) as ->.
    { eapply unique_parent; [exact Hlast|]. by exists b. }
    apply (Hcf p); [done|].
    eapply tc_rtc_r; [apply tc_once; by exists a|done]. }
  intros Ha Hb Hpa Hpb Hne Hax Hbx.
  destruct (ancestors_chain _ _ _ Hax Hbx) as [H|H].
  - by eapply (Hno a b).
  - by eapply (Hno b a).
Qed.

End forest.

Lemma childId_mono cs cs' p x : cs' ⊆ cs → childId cs' p x → childId cs p x.
Proof. intros Hsub (c & Hc & ?). exists c. split; [by apply Hsub|done]. Qed.

Lemma descendantId_mono cs cs' a x :
  cs' ⊆ cs → descendantId cs' a x → descendantId cs a x.
Proof.
  intros Hsub. induction 1 as [a x H|a y x H _ IH].
  - apply tc_once. by eapply childId_mono.
  - eapply tc_l; [by eapply childId_mono|done].
Qed.

Lemma acyclic_mono cs cs' : cs' ⊆ cs → acyclic cs → acyclic cs'.
Proof. intros Hsub Hac x Hx. eapply Hac, descendantId_mono; done. Qed.

(** * The records that are rendered *)

Lemma dataId_stampElement c : dataId (stampElement c) = Some (stampedId c).
Proof.
  unfold stampedId.
  enough (is_Some (dataId (stampElement c))) as [v ->] by done.
  unfold dataId, stampElement.
  assert (∀ kvs el,
    attrs (foldl (λ e kv, setStyle kv.1 kv.2 e) el kvs) = attrs el) as Hst.
  { induction kvs as [|? ? IH]; intros; simpl; [done|by rewrite IH]. }
  assert (∀ kvs el, is_Some (attrs el !! DATA_ID) →
    is_Some (attrs (foldl (λ e kv, setAttribute kv.1 kv.2 e) el kvs) !! DATA_ID))
    as Hat.
  { induction kvs as [|[k v] kvs IH]; intros el Hel; simpl; [done|].
    apply IH. simpl. rewrite lookup_insert_is_Some.
    destruct (decide (lower k = DATA_ID)); [by left|by right]. }
  assert (∀ el : Element, is_Some (
    attrs (setAttribute DATA_EZUI_CMS (cmsString (ezuiCms c))
             (setAttribute DATA_ID (pretty (id c)) el)) !! DATA_ID)) as H0.
  { intros el. simpl. rewrite lookup_insert_ne by done.
    rewrite lookup_insert_eq. by eexists. }
  destruct (attributes c); [apply Hat|];
    destruct (styles c); rewrite ?Hst; apply H0.
Qed.

Lemma stampedId_keepsIdentity c :
  keepsIdentity c → stampedId c = pretty (id c).
Proof. intros Hk. unfold stampedId. by rewrite stampElement_dataId. Qed.

(** One element per call, in document order. *)
Lemma buildElement_rendered cs lang fuel : ∀ c el,
  buildElement fuel cs lang c = Some el →
  ∃ tr, renderedRecords fuel cs c = Some tr ∧
        addressable el = stampedId <$> tr ∧
        nodeCount el = length tr.
Proof.
  induction fuel as [|n IH]; intros c el Hel; [done|].
  destruct (buildElement_Some _ _ _ _ _ Hel) as (n' & ks & [= <-] & Hks & Hkids & Hattrs & _).
  assert (∃ trs, mapM (renderedRecords n cs) (childrenOf cs c) = Some trs ∧
                 ks ≫= addressable = stampedId <$> concat trs ∧
                 sum_list (nodeCount <$> ks) = length (concat trs))
    as (trs & Htrs & Haddr & Hcount).
  { clear Hel Hkids. induction Hks as [|ch k chs ks Hb _ (trs & Htrs & Ha & Hn)].
    - by exists [].
    - destruct (IH _ _ Hb) as (tr & Htr & Ha' & Hn').
      exists (tr :: trs). split_and!.
      + rewrite mapM_Some. constructor; [done|by apply mapM_Some].
      + simpl. rewrite fmap_app, Ha'. f_equal. exact Ha.
      + simpl. rewrite length_app, Hn'. f_equal. exact Hn. }
  exists (c :: concat trs). split_and!.
  - simpl. by rewrite Htrs.
  - destruct el as [t a st sel tx kk]. simpl in *. subst kk.
    unfold dataId at 1. simpl. rewrite Hattrs.
    change (attrs (stampElement c) !! DATA_ID) with (dataId (stampElement c)).
    rewrite dataId_stampElement. simpl. by rewrite Haddr.
  - destruct el as [t a st sel tx kk]. simpl in *. subst kk. by rewrite Hcount.
Qed.

Lemma childrenOf_NoDup cs c : uniqueIds cs → NoDup (id <$> childrenOf cs c).
Proof.
  intros Hu. unfold childrenOf. rewrite (sort_perm orderKey).
  eapply sublist_NoDup; [exact Hu|]. apply fmap_sublist, sublist_filter.
Qed.

Lemma subtreeOf_concat cs p chs trs :
  uniqueIds cs → cycleFree cs p → NoDup (id <$> chs) →
  (∀ ch, ch ∈ chs → ch ∈ cs ∧ parentId ch = Some p) →
  Forall2 (subtreeOf cs) chs trs →
  (∀ c', c' ∈ concat trs → c' ∈ cs) ∧ NoDup (id <$> concat trs) ∧
  ∀ x, x ∈ id <$> concat trs ↔ ∃ ch, ch ∈ chs ∧ rtc (childId cs) (id ch) x.
Proof.
  intros Hu Hcf Hnd Hch Hall.
  induction Hall as [|ch tr chs trs (Hin & Hnd1 & Hreach) _ IH]; simpl.
  { split_and!; [by intros ? ?%elem_of_nil|constructor|].
    intros x. split; [by intros ?%elem_of_nil|by intros (? & ?%elem_of_nil & _)]. }
  rewrite fmap_cons in Hnd. apply NoDup_cons in Hnd as [Hnin Hnd].
  destruct IH as (IHin & IHnd & IHreach); [done|by intros; apply Hch; right|].
  split_and!.
  - intros c' [?|?]%elem_of_app; auto.
  - rewrite fmap_app. apply NoDup_app. split_and!; [done| |done].
    intros x Hx1 Hx2. apply Hreach in Hx1. apply IHreach in Hx2 as (ch' & Hch' & Hx2).
    destruct (Hch ch) as [? ?]; [by left|].
    destruct (Hch ch') as [? ?]; [by right|].
    eapply (siblings_disjoint cs Hu p ch ch' x); try done.
    intros Heq. apply Hnin. rewrite Heq. by apply list_elem_of_fmap_2.
  - intros x. rewrite fmap_app, elem_of_app, Hreach, IHreach. split.
    + intros [?|(ch' & ? & ?)]; [exists ch; split; [by left|done]|].
      exists ch'. split; [by right|done].
    + intros (ch' & [->|?]%elem_of_cons & ?); [by left|right; by exists ch'].
Qed.

Lemma renderedRecords_subtreeOf cs fuel : uniqueIds cs → ∀ c tr,
  c ∈ cs → cycleFree cs (id c) →
  renderedRecords fuel cs c = Some tr → subtreeOf cs c tr.
Proof.
  intros Hu. induction fuel as [|n IH]; intros c tr Hc Hcf Htr; [done|].
  simpl in Htr. destruct (mapM _ _) as [trs|] eqn:Htrs; [|done].
  simpl in Htr. simplify_eq. apply mapM_Some in Htrs.
  assert (Forall2 (subtreeOf cs) (childrenOf cs c) trs) as Hsub.
  { assert (∀ ch, ch ∈ childrenOf cs c → ch ∈ cs ∧ cycleFree cs (id ch)) as Hok.
    { intros ch Hch. split; [by apply elem_of_childrenOf in Hch as [? _]|].
      eapply cycleFree_child; [done|by apply childrenOf_childId]. }
    induction Htrs as [|ch t chs ts Hb _ IHf]; constructor.
    - destruct (Hok ch) as [? ?]; [by left|]. by apply IH.
    - apply IHf. intros ? ?. apply Hok. by right. }
  destruct (subtreeOf_concat cs (id c) _ _ Hu Hcf (childrenOf_NoDup cs c Hu)
              (λ ch, proj1 (elem_of_childrenOf cs c ch)) Hsub)
    as (Hin & Hnd & Hreach).
  split_and!.
  - intros c' [->|?]%elem_of_cons; auto.
  - rewrite fmap_cons. apply NoDup_cons. split; [|done].
    intros (ch & Hch & Hx)%Hreach.
    apply (Hcf (id c)); [done|].
    eapply tc_rtc_r; [apply tc_once; by apply childrenOf_childId|done].
  - intros x. rewrite fmap_cons, elem_of_cons, Hreach. split.
    + intros [->|(ch & Hch & Hx)]; [done|].
      eapply rtc_l; [by apply childrenOf_childId|done].
    + intros [->|(y & (ch & Hch & Hp & <-) & Hy)]%rtc_inv; [by left|].
      right. exists ch. split; [by apply elem_of_childrenOf|done].
Qed.

(** * [buildDOM] *)

Lemma rootComponent_Some cs r :
  rootComponent cs = Some r ↔
  ∃ i, cs !! i = Some r ∧ parentId r = None ∧
       ∀ j c, cs !! j = Some c → (j < i)%nat → parentId c ≠ None.
Proof.
  unfold rootComponent. split.
  - destruct (list_find isRoot cs) as [[i r']|] eqn:Hf; [|done].
    intros [= <-]. apply list_find_Some in Hf. by exists i.
  - intros (i & Hf). apply (list_find_Some isRoot) in Hf. by rewrite Hf.
Qed.

Lemma rootComponent_elem_of cs r :
  rootComponent cs = Some r → r ∈ cs ∧ parentId r = None.
Proof.
  intros (i & Hi & Hr & _)%rootComponent_Some.
  split; [by eapply list_elem_of_lookup_2|done].
Qed.

Lemma rootComponent_None cs :
  rootComponent cs = None ↔ Forall (λ c, parentId c ≠ None) cs.
Proof.
  unfold rootComponent. rewrite fmap_None. apply list_find_None.
Qed.

Lemma rootComponent_unique cs r :
  r ∈ cs → parentId r = None → Forall (λ c, parentId c = None → c = r) cs →
  rootComponent cs = Some r.
Proof.
  intros Hr Hnone Hall. destruct (rootComponent cs) as [r'|] eqn:Hroot.
  - apply rootComponent_elem_of in Hroot as [Hin Hn].
    rewrite Forall_forall in Hall. f_equal. by apply Hall.
  - apply rootComponent_None in Hroot. rewrite Forall_forall in Hroot.
    by destruct (Hroot r Hr).
Qed.

Lemma buildDOM_unfold fuel s :
  buildDOM fuel s =
    match rootComponent (components s) with
    | None => Some (setDom [] s)
    | Some r =>
      el ← buildElement fuel (components s) (currentLang s) r;
      Some (setDom [el] s)
    end.
Proof.
  unfold buildDOM, render. destruct (rootComponent _); [|done].
  by destruct (buildElement _ _ _ _).
Qed.

(** [buildDOM] on a store with unique ids that has a record without a
    parent: it returns with the element built from the first such record. *)
Lemma buildDOM_first_root s fuel r :
  uniqueIds (components s) → rootComponent (components s) = Some r →
  (length (components s) < fuel)%nat →
  ∃ el tr,
    buildDOM fuel s = Some (setDom [el] s) ∧
    buildElement fuel (components s) (currentLang s) r = Some el ∧
    renderedRecords fuel (components s) r = Some tr ∧
    addressable el = stampedId <$> tr ∧ nodeCount el = length tr ∧
    subtreeOf (components s) r tr.
Proof.
  intros Hu Hroot Hlen. set (cs := components s) in *.
  destruct (rootComponent_elem_of _ _ Hroot) as [Hr Hnone].
  pose proof (root_cycleFree cs Hu r Hr Hnone) as Hcf.
  destruct (buildElement_total cs (currentLang s) fuel r Hcf Hlen) as [el Hel].
  destruct (buildElement_rendered _ _ _ _ _ Hel) as (tr & Htr & Haddr & Hcount).
  exists el, tr. split_and!; try done.
  - rewrite buildDOM_unfold. fold cs. rewrite Hroot, Hel. done.
  - by apply (renderedRecords_subtreeOf cs fuel Hu r tr Hr Hcf).
Qed.

(** C10. [buildDOM] renders the tree of the first record, in list order,
    whose [parentId] is null, and returns: the rendered records are that
    record and the records below it. Every other record without a parent,
    and every record below one, is not rendered: [buildElement] is never
    entered on it, and (when no record overwrites the identity attribute) no
    element of the visual tree carries its id. *)
Theorem buildDOM_renders_first_root s fuel r :
  uniqueIds (components s) → rootComponent (components s) = Some r →
  (length (components s) < fuel)%nat →
  ∃ el tr,
    buildDOM fuel s = Some (setDom [el] s) ∧
    buildElement fuel (components s) (currentLang s) r = Some el ∧
    renderedRecords fuel (components s) r = Some tr ∧
    addressable el = stampedId <$> tr ∧ nodeCount el = length tr ∧
    subtreeOf (components s) r tr ∧
    (∃ i, components s !! i = Some r ∧
          ∀ j c, components s !! j = Some c → (j < i)%nat → parentId c ≠ None) ∧
    ∀ r2, r2 ∈ components s → parentId r2 = None → r2 ≠ r →
      ∀ c, c ∈ components s →
           rtc (childId (components s)) (id r2) (id c) →
           (c ∉ tr) ∧
           (Forall keepsIdentity (components s) →
            pretty (id c) ∉ addressable el).
Proof.
  intros Hu Hroot Hlen.
  destruct (buildDOM_first_root s fuel r Hu Hroot Hlen)
    as (el & tr & Hdom & Hel & Htr & Haddr & Hcount & Hin & Hnd & Hsub).
  destruct (rootComponent_elem_of _ _ Hroot) as [Hr Hnone].
  set (cs := components s) in *.
  exists el, tr. split_and!; try done.
  - apply rootComponent_Some in Hroot as (i & ? & _ & ?). by exists i.
  - intros r2 Hr2 Hnone2 Hne c Hc Hreach.
    assert (id c ∉ id <$> tr) as Hnotin.
    { intros Hx%Hsub.
      destruct (ancestors_chain cs Hu _ _ _ Hx Hreach) as [H|H].
      - apply (root_no_ancestor cs Hu r2) in H; [|done..].
        apply Hne. symmetry. by apply (unique_record cs Hu).
      - apply (root_no_ancestor cs Hu r) in H; [|done..].
        apply Hne. by apply (unique_record cs Hu). }
    split.
    + intros Hc'. apply Hnotin. by apply list_elem_of_fmap_2.
    + intros Hkeep. rewrite Forall_forall in Hkeep. rewrite Haddr.
      intros (c' & Heq & Hc')%list_elem_of_fmap.
      rewrite stampedId_keepsIdentity in Heq by by apply Hkeep, Hin.
      apply (inj pretty) in Heq. apply Hnotin. rewrite Heq.
      by apply list_elem_of_fmap_2.
Qed.

Lemma buildDOM_renders_first_root_two_roots :
  uniqueIds twoRootsStore ∧
  rootComponent twoRootsStore = Some (mkRec 0 None None) ∧
  (length twoRootsStore < 5)%nat ∧
  ∃ el, buildDOM 5 (mkState twoRootsStore "en" [] [])
        = Some (mkState twoRootsStore "en" [el] []) ∧
        addressable el = ["0"; "1"] ∧
        (pretty 5 ∉ addressable el) ∧ (pretty 6 ∉ addressable el).
Proof.
  assert (uniqueIds twoRootsStore) as Hu by (unfold uniqueIds; compute_done).
  assert (rootComponent twoRootsStore = Some (mkRec 0 None None)) as Hroot
    by reflexivity.
  assert (length twoRootsStore < 5)%nat as Hlen by (simpl; lia).
  split; [exact Hu|]. split; [exact Hroot|]. split; [exact Hlen|].
  destruct (buildDOM_renders_first_root (mkState twoRootsStore "en" [] []) 5
              (mkRec 0 None None) Hu Hroot Hlen)
    as (el & tr & Hdom & Hel & _ & _ & _ & _ & _ & Habs).
  exists el. split; [exact Hdom|].
  assert (Forall keepsIdentity twoRootsStore) as Hkeep
    by (repeat constructor; intros kvs; discriminate).
  assert (mkRec 5 None None ∈ twoRootsStore) as H5
    by compute_done.
  assert (mkRec 6 (Some 5) None ∈ twoRootsStore) as H6
    by compute_done.
  split_and!.
  - vm_compute in Hel. injection Hel as <-. reflexivity.
  - refine (proj2 (Habs (mkRec 5 None None) H5 eq_refl _ _ H5 _) Hkeep).
    + discriminate.
    + apply rtc_refl.
  - refine (proj2 (Habs (mkRec 5 None None) H5 eq_refl _ _ H6 _) Hkeep).
    + discriminate.
    + apply rtc_once. exists (mkRec 6 (Some 5) None). by split.
Defined.

(** On a store with unique ids whose records are all at or below the one
    record without a parent, the rendered records are the store. *)
Lemma renderedRecords_whole_store cs fuel r tr :
  uniqueIds cs → r ∈ cs → parentId r = None →
  Forall (λ c, rtc (childId cs) (id r) (id c)) cs →
  renderedRecords fuel cs r = Some tr → tr ≡ₚ cs.
Proof.
  intros Hu Hr Hnone Hreach Htr. rewrite Forall_forall in Hreach.
  destruct (renderedRecords_subtreeOf cs fuel Hu r tr Hr
              (root_cycleFree cs Hu r Hr Hnone) Htr) as (Hin & Hnd & Hsub).
  apply NoDup_Permutation.
  - by eapply NoDup_fmap_1.
  - by eapply NoDup_fmap_1.
  - intros c. split; [apply Hin|]. intros Hc.
    pose proof (proj2 (Hsub _) (Hreach _ Hc)) as Hid.
    apply list_elem_of_fmap in Hid as (c' & Heq & Hc').
    assert (c = c') as ->; [|done].
    apply (unique_record cs Hu); [done|by apply Hin|done].
Qed.

(** C3, as the code has it. On a valid store (unique ids, exactly one record
    without a parent, no parent cycle, every record at or below that root) in
    which no record overwrites the identity attribute through [attributes],
    [buildDOM] returns a tree with as many elements as the store has records;
    its elements, in document order, carry the ids of the records they were
    built from, every record exactly once, so no two elements share an
    identity attribute. *)
Theorem buildDOM_valid_store s fuel r :
  uniqueIds (components s) → acyclic (components s) →
  r ∈ components s → parentId r = None →
  Forall (λ c, parentId c = None → c = r) (components s) →
  Forall (λ c, rtc (childId (components s)) (id r) (id c)) (components s) →
  Forall keepsIdentity (components s) →
  (length (components s) < fuel)%nat →
  ∃ el tr,
    buildDOM fuel s = Some (setDom [el] s) ∧
    nodeCount el = length (components s) ∧
    tr ≡ₚ components s ∧
    addressable el = (λ c, pretty (id c)) <$> tr ∧
    NoDup (addressable el).
Proof.
  intros Hu Hac Hr Hnone Hone Hreach Hkeep Hlen.
  pose proof (rootComponent_unique _ _ Hr Hnone Hone) as Hroot.
  destruct (buildDOM_first_root s fuel r Hu Hroot Hlen)
    as (el & tr & Hdom & Hel & Htr & Haddr & Hcount & _).
  pose proof (renderedRecords_whole_store _ _ _ _ Hu Hr Hnone Hreach Htr) as Hperm.
  assert (addressable el = (λ c, pretty (id c)) <$> tr) as Haddr'.
  { rewrite Haddr. apply list_fmap_ext. intros i c Hc.
    apply stampedId_keepsIdentity.
    rewrite Forall_forall in Hkeep. apply Hkeep.
    rewrite <-Hperm. by eapply list_elem_of_lookup_2. }
  exists el, tr. split_and!; try done.
  - by rewrite Hcount, Hperm.
  - rewrite Haddr'. apply NoDup_fmap_2_strong.
    + intros c c' Hc Hc' Heq%(inj pretty). rewrite Hperm in Hc, Hc'.
      by apply (unique_record _ Hu).
    + rewrite Hperm. by eapply NoDup_fmap_1.
Qed.

Lemma buildDOM_valid_store_chain :
  uniqueIds chainStore ∧ acyclic chainStore ∧
  ∃ el, buildDOM 6 (mkState chainStore "en" [] [])
        = Some (mkState chainStore "en" [el] []) ∧
        nodeCount el = 5%nat ∧
        addressable el = ["0"; "1"; "2"; "3"; "4"].
Proof.
  assert (uniqueIds chainStore) as Hu by (unfold uniqueIds; compute_done).
  assert (acyclic chainStore) as Hac
    by (apply (rankedBy_acyclic Z.to_nat); reflexivity).
  split; [exact Hu|]. split; [exact Hac|].
  assert (∀ i p, mkRec i (Some p) None ∈ chainStore →
                 childId chainStore p i) as Hstep.
  { intros i p Hin. by exists (mkRec i (Some p) None). }
  assert (childId chainStore 0 1) as H01 by (apply Hstep; compute_done).
  assert (childId chainStore 1 2) as H12 by (apply Hstep; compute_done).
  assert (childId chainStore 2 3) as H23 by (apply Hstep; compute_done).
  assert (childId chainStore 0 4) as H04 by (apply Hstep; compute_done).
  destruct (buildDOM_valid_store (mkState chainStore "en" [] []) 6
              (mkRec 0 None None)) as (el & tr & Hdom & Hcount & _ & _ & _).
  - exact Hu.
  - exact Hac.
  - compute_done.
  - reflexivity.
  - repeat constructor; discriminate.
  - repeat constructor; simpl.
    + by apply rtc_once.
    + eapply rtc_l; [exact H01|]. by apply rtc_once.
    + eapply rtc_l; [exact H01|]. eapply rtc_l; [exact H12|]. by apply rtc_once.
    + by apply rtc_once.
  - repeat constructor; intros kvs; discriminate.
  - simpl. lia.
  - exists el. split; [exact Hdom|]. split; [exact Hcount|].
    vm_compute in Hdom. injection Hdom as <-. reflexivity.
Defined.

(** C3 as stated fails on [overrideStore]: it has unique ids, exactly one
    root, no cycle, and its one record is the root; the element built from
    that record, whose id is 1, carries the identity 7. *)
Lemma identity_attribute_overwritten :
  acyclic overrideStore ∧ uniqueIds overrideStore ∧
  Forall (λ c, parentId c = None → id c = 1) overrideStore ∧
  Forall (λ c, rtc (childId overrideStore) 1 (id c)) overrideStore ∧
  ∃ el, render 2 overrideStore "en" = Some [el] ∧
        addressable el = ["7"] ∧ nodeCount el = 1%nat ∧
        (λ c, pretty (id c)) <$> overrideStore = ["1"].
Proof.
  split_and!.
  - apply (rankedBy_acyclic Z.to_nat). reflexivity.
  - unfold uniqueIds. compute_done.
  - repeat constructor.
  - repeat constructor.
  - eexists. split; [vm_compute; reflexivity|]. by vm_compute.
Qed.

Lemma render_total cs lang fuel :
  acyclic cs → (length cs < fuel)%nat → is_Some (render fuel cs lang).
Proof.
  intros Hac Hlen. unfold render. destruct (rootComponent cs) as [r|]; [|done].
  destruct (buildElement_total cs lang fuel r) as [el ->];
    [by apply acyclic_cycleFree|done|done].
Qed.

(** * [deleteComponent] *)

Lemma descendantOf_descendantId cs i c :
  descendantOf cs i c → descendantId cs i (id c).
Proof.
  intros (Hc & p & Hp & Hreach).
  eapply tc_rtc_l; [exact Hreach|]. apply tc_once. by exists c.
Qed.

Lemma descendantId_descendantOf cs i c :
  uniqueIds cs → c ∈ cs → descendantId cs i (id c) → descendantOf cs i c.
Proof.
  intros Hu Hc (p & Hreach & c' & Hc' & Hp & Hid)%descendant_last.
  assert (c' = c) as -> by by apply (unique_record cs Hu).
  split; [done|]. by exists p.
Qed.

Lemma descendantId_inv cs p x :
  descendantId cs p x ↔
  ∃ ch, ch ∈ filter (isChildOf p) cs ∧ (x = id ch ∨ descendantId cs (id ch) x).
Proof.
  split.
  - intros H. destruct H as [p x (ch & Hch & Hp & <-)|p y x (ch & Hch & Hp & <-) Hyx].
    + exists ch. split; [by apply list_elem_of_filter|by left].
    + exists ch. split; [by apply list_elem_of_filter|by right].
  - intros (ch & [Hp Hch]%list_elem_of_filter & Hx).
    assert (childId cs p (id ch)) as Hstep by by exists ch.
    destruct Hx as [->|Hx]; [by apply tc_once|by eapply tc_l].
Qed.

(** [findChildren] appends to [idsToRemove] the ids below [parent], and
    returns whenever no parent cycle lies below [parent]. *)
Lemma findChildren_spec cs fuel : ∀ path parent acc,
  pathTo cs path parent → (length cs < fuel + length path)%nat →
  ∃ l, findChildren fuel cs parent acc = Some l ∧
       ∀ x, x ∈ l ↔ x ∈ acc ∨ descendantId cs parent x.
Proof.
  induction fuel as [|n IH]; intros path parent acc Hp Hlen.
  { destruct (pathTo_fuel _ _ _ _ Hp Hlen); done. }
  simpl.
  assert (∀ chs acc, (∀ ch, ch ∈ chs → ch ∈ cs ∧ parentId ch = Some parent) →
    ∃ l, foldl (λ a c, ids ← a; findChildren n cs (id c) (ids ++ [id c]))
               (Some acc) chs = Some l ∧
         ∀ x, x ∈ l ↔ x ∈ acc ∨
                ∃ ch, ch ∈ chs ∧ (x = id ch ∨ descendantId cs (id ch) x))
    as Hfold.
  { clear acc. induction chs as [|ch chs IHchs]; intros acc Hchs.
    - exists acc. split; [done|]. intros x. split; [by left|].
      intros [?|(? & ?%elem_of_nil & _)]; done.
    - destruct (Hchs ch) as [Hin Hpar]; [by left|].
      destruct (IH (id ch :: path) (id ch) (acc ++ [id ch])) as (l1 & Hl1 & Hmem1);
        [by eapply pathTo_child|simpl; lia|].
      destruct (IHchs l1) as (l & Hl & Hmem); [by intros; apply Hchs; right|].
      exists l. split; [simpl; by rewrite Hl1|].
      intros x. rewrite Hmem, Hmem1, elem_of_app, list_elem_of_singleton.
      split.
      + intros [[[? | ->] | ?] | (ch' & ? & ?)].
        * by left.
        * right. exists ch. split; [by left|by left].
        * right. exists ch. split; [by left|by right].
        * right. exists ch'. split; [by right|done].
      + intros [? | (ch' & [-> | ?]%elem_of_cons & [-> | ?])].
        * by left; left; left.
        * by left; left; right.
        * by left; right.
        * right. exists ch'. split; [done|by left].
        * right. exists ch'. split; [done|by right]. }
  destruct (Hfold (filter (isChildOf parent) cs) acc) as (l & Hl & Hmem).
  { intros ch [? ?]%list_elem_of_filter. done. }
  exists l. split; [done|]. intros x. rewrite Hmem.
  by rewrite <-descendantId_inv.
Qed.

(** C2. On an acyclic store (with unique ids), [deleteComponent id] returns,
    and the store it leaves is the old store, in its order, without the
    record whose id is [id] and without the records below [id] in the
    [parentId] relation; every other record stays. The page is rebuilt from
    that store. *)
Theorem deleteComponent_removes_subtree s fuel i :
  uniqueIds (components s) → acyclic (components s) →
  (length (components s) < fuel)%nat →
  ∃ s',
    deleteComponent fuel i s = Some s' ∧
    components s' `sublist_of` components s ∧
    (∀ c, c ∈ components s' ↔
          c ∈ components s ∧ id c ≠ i ∧ ¬ descendantOf (components s) i c) ∧
    render fuel (components s') (currentLang s') = Some (dom s').
Proof.
  intros Hu Hac Hlen. set (cs := components s) in *.
  destruct (findChildren_spec cs fuel [] i [i]) as (ids & Hids & Hmem).
  { by apply pathTo_nil, acyclic_cycleFree. }
  { simpl. lia. }
  set (cs' := filter (λ c, id c ∉ ids) cs).
  assert (cs' `sublist_of` cs) as Hsub by apply sublist_filter.
  destruct (render_total cs' (currentLang s) fuel) as [d Hd].
  { eapply acyclic_mono; [|exact Hac]. intros c Hc. by eapply elem_of_sublist. }
  { apply sublist_length in Hsub. lia. }
  exists (setDom d (setComponents cs' s)). split_and!.
  - unfold deleteComponent. fold cs. rewrite Hids. simpl.
    unfold buildDOM. simpl. fold cs'. by rewrite Hd.
  - done.
  - intros c. simpl. unfold cs'. rewrite list_elem_of_filter, Hmem.
    rewrite list_elem_of_singleton. split.
    + intros [Hnot Hc]. split_and!; [done|tauto|].
      intros Hd'%descendantOf_descendantId. tauto.
    + intros (Hc & Hne & Hnd). split; [|done].
      intros [?|Hd']; [done|]. by apply Hnd, descendantId_descendantOf.
  - done.
Qed.

(** Deleting A (id 1) from root -> A -> B -> C, root -> D leaves the root
    and D. *)
Lemma deleteComponent_removes_subtree_chain :
  uniqueIds chainStore ∧ acyclic chainStore ∧ (length chainStore < 6)%nat ∧
  ∃ s', deleteComponent 6 1 (mkState chainStore "en" [] []) = Some s' ∧
        components s' = [mkRec 0 None None; mkRec 4 (Some 0) None] ∧
        (∀ c, c ∈ components s' ↔
              c ∈ chainStore ∧ id c ≠ 1 ∧ ¬ descendantOf chainStore 1 c).
Proof.
  assert (uniqueIds chainStore) as Hu by (unfold uniqueIds; compute_done).
  assert (acyclic chainStore) as Hac
    by (apply (rankedBy_acyclic Z.to_nat); reflexivity).
  assert (length chainStore < 6)%nat as Hlen by (simpl; lia).
  split; [exact Hu|]. split; [exact Hac|]. split; [exact Hlen|].
  destruct (deleteComponent_removes_subtree (mkState chainStore "en" [] []) 6 1
              Hu Hac Hlen) as (s' & Hdel & _ & Hmem & _).
  exists s'. split; [exact Hdel|]. split; [|exact Hmem].
  vm_compute in Hdel. injection Hdel as <-. reflexivity.
Defined.

(** * The message handler *)

(** C8. A message whose [source] is not the host tag leaves the page as it
    was: the store, the visual tree, the language and the messages sent are
    those of the state before. *)
Theorem handleMessage_ignores_foreign_source fuel e s :
  source e ≠ Some VISUAL_EDITOR → handleMessage fuel e s = Some s.
Proof. intros Hsrc. unfold handleMessage. by case_decide. Qed.

Lemma handleMessage_ignores_foreign_source_delete :
  Some "other-frame" ≠ Some VISUAL_EDITOR ∧
  handleMessage 0 (mkMessage (Some "other-frame") (DeleteComponent 0))
                (mkState chainStore "en" [] [])
  = Some (mkState chainStore "en" [] []).
Proof.
  split; [discriminate|].
  apply (handleMessage_ignores_foreign_source 0
           (mkMessage (Some "other-frame") (DeleteComponent 0))).
  discriminate.
Defined.

Lemma handleMessage_fromHost fuel cmd s :
  handleMessage fuel (fromHost cmd) s = dispatch fuel cmd s.
Proof. unfold handleMessage. by rewrite decide_True. Qed.

Lemma render_total_unique cs lang fuel :
  uniqueIds cs → (length cs < fuel)%nat → is_Some (render fuel cs lang).
Proof.
  intros Hu Hlen. unfold render.
  destruct (rootComponent cs) as [r|] eqn:Hroot; [|done].
  apply rootComponent_elem_of in Hroot as [Hr Hnone].
  destruct (buildElement_total cs lang fuel r) as [el ->];
    [by apply root_cycleFree|done|done].
Qed.

Lemma buildDOM_Some fuel s s' :
  buildDOM fuel s = Some s' ↔
  ∃ d, render fuel (components s) (currentLang s) = Some d ∧ s' = setDom d s.
Proof.
  unfold buildDOM. destruct (render _ _ _) as [d|]; simpl.
  - split.
    + intros [= <-]. by exists d.
    + intros (d' & Heq & ->). by simplify_eq.
  - split; [done|by intros (? & ? & _)].
Qed.

Lemma list_find_id_None cs i :
  list_find (λ c, id c = i) cs = None ↔ i ∉ id <$> cs.
Proof.
  rewrite list_find_None, Forall_forall, list_elem_of_fmap. split.
  - intros H (c & -> & Hc). by apply (H c).
  - intros H c Hc Heq. apply H. by exists c.
Qed.

Lemma reorder_ids (cs : list Component) (k : nat) comp newOrder :
  cs !! k = Some comp →
  id <$> <[k := set_order newOrder comp]> cs = id <$> cs.
Proof.
  intros Hk. rewrite list_fmap_insert. apply list_insert_id.
  by rewrite list_lookup_fmap, Hk.
Qed.

(** A structural command returns once the fuel exceeds the sizes of the
    stores involved. *)
Lemma dispatch_structural_total cmd s fuel :
  structural cmd → admissible cmd s →
  (S (length (components s)) +
   match cmd with Rebuild (Some cs) => length cs | _ => 0 end < fuel)%nat →
  is_Some (dispatch fuel cmd s).
Proof.
  assert (∀ cs, uniqueIds cs → (length cs < fuel)%nat →
                is_Some (buildDOM fuel (setComponents cs s))) as Hb.
  { intros cs Hu Hlen.
    destruct (render_total_unique cs (currentLang s) fuel Hu Hlen) as [d Hd].
    exists (setDom d (setComponents cs s)). apply buildDOM_Some. by exists d. }
  destruct cmd as [| | | |i n|c|i|[cs|]|]; simpl; try done; intros _ Hadm Hlen.
  - unfold reorderComponent.
    destruct (list_find _ _) as [[k comp]|] eqn:Hf; [|done].
    apply list_find_Some in Hf as (Hk & _ & _).
    apply Hb; [|rewrite length_insert; lia].
    unfold uniqueIds. by rewrite reorder_ids.
  - apply Hb; [done|]. rewrite length_app. simpl. lia.
  - destruct Hadm as [Hu Hcf]. unfold deleteComponent.
    destruct (findChildren_spec (components s) fuel [] i [i]) as (ids & -> & _);
      [by apply pathTo_nil|simpl; lia|]. simpl.
    pose proof (sublist_filter (λ c, id c ∉ ids) (components s)) as Hsub.
    apply Hb.
    + eapply sublist_NoDup; [exact Hu|]. by apply fmap_sublist.
    + apply sublist_length in Hsub. lia.
  - apply Hb; [done|lia].
  - destruct s as [cs0 lang d o]. apply (Hb cs0); [done|simpl in *; lia].
Qed.

(** What a structural command does when it returns. *)
Lemma dispatch_structural_effect cmd s fuel s' :
  structural cmd → dispatch fuel cmd s = Some s' →
  (targetMissing cmd s → s' = s) ∧
  (¬ targetMissing cmd s →
   render fuel (components s') (currentLang s') = Some (dom s') ∧
   currentLang s' = currentLang s ∧ outbox s' = outbox s ∧
   match cmd with
   | Reorder i n =>
     ∃ k comp, components s !! k = Some comp ∧ id comp = i ∧
       (∀ j c, components s !! j = Some c → (j < k)%nat → id c ≠ i) ∧
       components s' = <[k := set_order n comp]> (components s)
   | AddComponent c => components s' = components s ++ [c]
   | DeleteComponent i =>
     ∃ ids, findChildren fuel (components s) i [i] = Some ids ∧
            components s' = filter (λ c, id c ∉ ids) (components s)
   | Rebuild (Some cs) => components s' = cs
   | _ => components s' = components s
   end).
Proof.
  destruct cmd as [| | | |i n|c|i|[cs|]|]; simpl; try done; intros _ Hd.
  - unfold reorderComponent in Hd.
    destruct (list_find _ _) as [[k comp]|] eqn:Hf.
    + apply buildDOM_Some in Hd as (d & Hd & ->).
      apply list_find_Some in Hf as (Hk & Hid & Hfirst). split.
      * intros Hmiss. destruct Hmiss. apply list_elem_of_fmap.
        exists comp. split; [done|by eapply list_elem_of_lookup_2].
      * intros _. split_and!; try done. by exists k, comp.
    + simplify_eq. split; [done|].
      intros Hn. destruct Hn. by apply list_find_id_None.
  - apply buildDOM_Some in Hd as (d & Hd & ->). split; [done|]. by intros _.
  - unfold deleteComponent in Hd.
    destruct (findChildren _ _ _ _) as [ids|]; [|done]. simpl in Hd.
    apply buildDOM_Some in Hd as (d & Hd & ->). split; [done|].
    intros _. split_and!; try done. by exists ids.
  - apply buildDOM_Some in Hd as (d & Hd & ->). split; [done|]. by intros _.
  - apply buildDOM_Some in Hd as (d & Hd & ->). split; [done|]. by intros _.
Qed.

Lemma updateDom_dom p f s :
  updateDom p f s =
  setDom (default (dom s) (updateFirstOf (updateFirst p f) (dom s))) s.
Proof.
  unfold updateDom. destruct (updateFirstOf _ _); [done|by destruct s].
Qed.

Lemma dispatch_pureDom fuel cmd s :
  pureDom cmd → dispatch fuel cmd s = Some (setDom (liveEdit cmd (dom s)) s).
Proof.
  destruct cmd; simpl; try done; intros _; unfold liveEdit; simpl;
    unfold updateContent, updateStyle, highlightElement, clearHighlight;
    rewrite ?updateDom_dom; done.
Qed.

Lemma dispatch_structural_ignores_dom fuel cmd s d :
  structural cmd → ¬ targetMissing cmd s →
  dispatch fuel cmd (setDom d s) = dispatch fuel cmd s.
Proof.
  destruct cmd as [| | | |i n|c|i|[cs|]|]; simpl; try done; intros _ Hnm.
  unfold reorderComponent. simpl.
  destruct (list_find _ _) as [[k comp]|] eqn:Hf; [done|].
  destruct Hnm. by apply list_find_id_None.
Qed.

(** C6, as the code has it. [add-component], [delete-component], [rebuild],
    and [reorder] of an id that is in the store return with the tree that
    [buildDOM] builds from the store they leave, whatever tree was there
    before: the former elements are discarded. [reorder] of an id that is
    not in the store changes nothing and does not rebuild. *)
Theorem structural_commands_rebuild cmd s :
  structural cmd → admissible cmd s →
  ∃ n, ∀ fuel, (n ≤ fuel)%nat →
    ∃ s', handleMessage fuel (fromHost cmd) s = Some s' ∧
      (targetMissing cmd s → s' = s) ∧
      (¬ targetMissing cmd s →
       render fuel (components s') (currentLang s') = Some (dom s') ∧
       ∀ d, handleMessage fuel (fromHost cmd) (setDom d s) = Some s').
Proof.
  intros Hst Hadm.
  exists (S (S (length (components s)) +
             match cmd with Rebuild (Some cs) => length cs | _ => 0 end))%nat.
  intros fuel Hfuel.
  destruct (dispatch_structural_total cmd s fuel Hst Hadm) as [s' Hs']; [lia|].
  exists s'. rewrite handleMessage_fromHost.
  destruct (dispatch_structural_effect cmd s fuel s' Hst Hs') as [Hmiss Hfresh].
  split_and!; [done|done|].
  intros Hnm. split; [by apply Hfresh|].
  intros d. rewrite handleMessage_fromHost.
  by rewrite dispatch_structural_ignores_dom.
Qed.

Lemma structural_commands_rebuild_add :
  structural (AddComponent (mkRec 5 (Some 4) None)) ∧
  admissible (AddComponent (mkRec 5 (Some 4) None))
             (mkState chainStore "en" [] []) ∧
  ∃ n, ∀ fuel, (n ≤ fuel)%nat →
    ∃ s', handleMessage fuel (fromHost (AddComponent (mkRec 5 (Some 4) None)))
                        (mkState chainStore "en" [] []) = Some s' ∧
          render fuel (components s') (currentLang s') = Some (dom s').
Proof.
  assert (admissible (AddComponent (mkRec 5 (Some 4) None))
                     (mkState chainStore "en" [] [])) as Hadm
    by (unfold admissible, uniqueIds; compute_done).
  split; [exact I|]. split; [exact Hadm|].
  destruct (structural_commands_rebuild (AddComponent (mkRec 5 (Some 4) None))
              (mkState chainStore "en" [] []) I Hadm) as (n & Hn).
  exists n. intros fuel Hfuel.
  destruct (Hn fuel Hfuel) as (s' & Hs' & _ & Hfresh).
  exists s'. split; [exact Hs'|]. apply Hfresh. intros [].
Defined.

(** C6 as stated fails for [reorder]: after an [update-content] on the leaf
    4, a [reorder] of the id 99, which no record has, returns the state it
    was given; the tree still holds the edited text, which a rebuild from the
    store would not. *)
Lemma reorder_of_missing_id_keeps_old_tree :
  ∃ s1 s2 d,
    init 6 true (mkDataJson None chainStore) = Some s1 ∧
    handleMessage 6 (fromHost (UpdateContent 4 "draft")) s1 = Some s2 ∧
    handleMessage 6 (fromHost (Reorder 99 1)) s2 = Some s2 ∧
    dom s2 ≫= liveText = [None; None; None; None; Some "draft"] ∧
    render 6 (components s2) (currentLang s2) = Some d ∧
    d ≫= liveText = [None; None; None; None; None] ∧
    Some (dom s2) ≠ render 6 (components s2) (currentLang s2).
Proof.
  eexists _, _, _. split_and!; try (vm_compute; reflexivity).
  intros Heq.
  apply (f_equal (λ o, (λ d, d ≫= liveText) <$> o)) in Heq.
  vm_compute in Heq. discriminate Heq.
Qed.

(** C5, as the code has it. The pure-DOM commands ([update-content],
    [update-style], [highlight], [clear-highlight]) return with the store
    untouched, and the tree they leave is computed from the tree before
    alone: nothing is rebuilt. [reorder] of an id in the store, [add-component],
    [delete-component] and [rebuild] change the store ([reorder] sets the
    [order] of the first record with the id, [add-component] appends the
    record, [delete-component] filters the removed ids out, [rebuild] takes
    the replacement list when there is one) and leave the tree that [buildDOM]
    builds from it; [reorder] of an id not in the store changes nothing. *)
Theorem mutation_commands_effects cmd s :
  (pureDom cmd →
   ∀ fuel, ∃ s', handleMessage fuel (fromHost cmd) s = Some s' ∧
     components s' = components s ∧ dom s' = liveEdit cmd (dom s)) ∧
  (structural cmd → admissible cmd s →
   ∃ n, ∀ fuel, (n ≤ fuel)%nat →
     ∃ s', handleMessage fuel (fromHost cmd) s = Some s' ∧
       (targetMissing cmd s → s' = s) ∧
       (¬ targetMissing cmd s →
        render fuel (components s') (currentLang s') = Some (dom s') ∧
        match cmd with
        | Reorder i n =>
          ∃ k comp, components s !! k = Some comp ∧ id comp = i ∧
            (∀ j c, components s !! j = Some c → (j < k)%nat → id c ≠ i) ∧
            components s' = <[k := set_order n comp]> (components s)
        | AddComponent c => components s' = components s ++ [c]
        | DeleteComponent i =>
          ∃ ids, findChildren fuel (components s) i [i] = Some ids ∧
                 components s' = filter (λ c, id c ∉ ids) (components s)
        | Rebuild (Some cs) => components s' = cs
        | _ => components s' = components s
        end)).
Proof.
  split.
  - intros Hp fuel. exists (setDom (liveEdit cmd (dom s)) s).
    rewrite handleMessage_fromHost. split; [by apply dispatch_pureDom|done].
  - intros Hst Hadm.
    exists (S (S (length (components s)) +
               match cmd with Rebuild (Some cs) => length cs | _ => 0 end))%nat.
    intros fuel Hfuel.
    destruct (dispatch_structural_total cmd s fuel Hst Hadm) as [s' Hs']; [lia|].
    exists s'. rewrite handleMessage_fromHost.
    destruct (dispatch_structural_effect cmd s fuel s' Hst Hs') as [Hmiss Hfresh].
    split_and!; [done|done|].
    intros Hnm. destruct (Hfresh Hnm) as (? & _ & _ & ?). done.
Qed.

Lemma mutation_commands_effects_on_chain :
  (∃ s', handleMessage 0 (fromHost (UpdateStyle 4 "color" "red"))
                       (mkState chainStore "en" [] []) = Some s' ∧
         components s' = chainStore) ∧
  ∃ n, ∀ fuel, (n ≤ fuel)%nat →
    ∃ s', handleMessage fuel (fromHost (Reorder 4 (-1)))
                        (mkState chainStore "en" [] []) = Some s' ∧
          render fuel (components s') (currentLang s') = Some (dom s') ∧
          components s' =
            [mkRec 0 None None; mkRec 1 (Some 0) None; mkRec 2 (Some 1) None;
             mkRec 3 (Some 2) None; mkRec 4 (Some 0) (Some (-1))].
Proof.
  split.
  - destruct (proj1 (mutation_commands_effects (UpdateStyle 4 "color" "red")
                       (mkState chainStore "en" [] [])) I 0%nat)
      as (s' & Hs' & Hcs & _).
    exists s'. split; [exact Hs'|exact Hcs].
  - assert (admissible (Reorder 4 (-1)) (mkState chainStore "en" [] [])) as Hadm
      by (unfold admissible, uniqueIds; compute_done).
    destruct (proj2 (mutation_commands_effects (Reorder 4 (-1))
                       (mkState chainStore "en" [] [])) I Hadm) as (n & Hn).
    exists n. intros fuel Hfuel.
    destruct (Hn fuel Hfuel) as (s' & Hs' & _ & Hfresh).
    assert (¬ targetMissing (Reorder 4 (-1)) (mkState chainStore "en" [] []))
      as Hnm by (intros Hm; apply Hm; compute_done).
    destruct (Hfresh Hnm) as (Hr & k & comp & Hk & Hid & Hfirst & Hcs).
    exists s'. split; [exact Hs'|]. split; [exact Hr|].
    rewrite Hcs. simpl in Hk.
    destruct k as [|[|[|[|[|k]]]]]; simpl in Hk; simplify_eq; try done.
Defined.

(** C5 as stated fails for the pure-DOM commands: [update-content] on the
    leaf 4 changes the text of the live element and leaves the store as it
    was. *)
Lemma update_content_leaves_store :
  ∃ s1 s2,
    init 6 true (mkDataJson None chainStore) = Some s1 ∧
    handleMessage 6 (fromHost (UpdateContent 4 "draft")) s1 = Some s2 ∧
    components s2 = components s1 ∧
    dom s1 ≫= liveText = [None; None; None; None; None] ∧
    dom s2 ≫= liveText = [None; None; None; None; Some "draft"].
Proof. eexists _, _. split_and!; vm_compute; reflexivity. Qed.

(** * Start-up *)

Lemma init_outbox fuel data s :
  init fuel true data = Some s →
  outbox s = [EzuiReady (length (dataComponents data))
                        (str_or (language data) "en")] ∧
  components s = dataComponents data.
Proof.
  unfold init. destruct (buildDOM _ _) as [s0|] eqn:Hb; [|done].
  intros [= <-]. apply buildDOM_Some in Hb as (d & _ & ->). done.
Qed.

Lemma handleMessage_outbox fuel e s s' :
  handleMessage fuel e s = Some s' → outbox s' = outbox s.
Proof.
  unfold handleMessage. case_decide as Hsrc; [|by intros [= <-]].
  destruct (command e) as [| | | |i n|c|i|r|] eqn:Hc; simpl;
    try (intros [= <-]; unfold updateContent, updateStyle, highlightElement,
           clearHighlight; rewrite ?updateDom_dom; done).
  - intros H. destruct (dispatch_structural_effect (Reorder i n) s fuel s' I H)
      as [Hm Hf].
    destruct (decide (i ∈ id <$> components s)) as [Hin|Hnin].
    + destruct Hf as (_ & _ & ? & _); [by intros Hm'|done].
    + by rewrite Hm.
  - intros H. destruct (dispatch_structural_effect (AddComponent c) s fuel s' I H)
      as [_ Hf]. destruct Hf as (_ & _ & ? & _); [by intros []|done].
  - intros H. destruct (dispatch_structural_effect (DeleteComponent i) s fuel s' I H)
      as [_ Hf]. destruct Hf as (_ & _ & ? & _); [by intros []|done].
  - intros H. destruct (dispatch_structural_effect (Rebuild r) s fuel s' I H)
      as [_ Hf]. destruct Hf as (_ & _ & ? & _); [by intros []|done].
Qed.

(** C9 at [orphanStore], which has unique ids, one root and no cycle: the
    page posts one ready message, whose [elementsCount] is 3, the number of
    records, while the rendered tree has 2 addressable elements. *)
Lemma ready_message_counts_records :
  uniqueIds orphanStore ∧ acyclic orphanStore ∧
  ∃ s, init 4 true (mkDataJson None orphanStore) = Some s ∧
       outbox s = [EzuiReady 3 "en"] ∧
       dom s ≫= addressable = ["0"; "1"] ∧
       length (dom s ≫= addressable) = 2%nat.
Proof.
  split_and!.
  - unfold uniqueIds. compute_done.
  - apply (rankedBy_acyclic (λ x, Z.to_nat (if decide (x = 7) then 100 else x))).
    reflexivity.
  - eexists. split_and!; vm_compute; reflexivity.
Qed.

(** * Structure of the live tree *)

Lemma Element_ind' (P : Element → Prop) :
  (∀ t a st sel tx ks, Forall P ks → P (mkElement t a st sel tx ks)) →
  ∀ el, P el.
Proof.
  intros H. fix IH 1. intros [t a st sel tx ks]. apply H.
  induction ks as [|k ks IHks]; constructor; [apply IH|exact IHks].
Qed.

Lemma skeleton_clearSelected el : skeleton (clearSelected el) = skeleton el.
Proof.
  induction el as [t a st sel tx ks IH] using Element_ind'. simpl. f_equal.
  induction IH as [|k ks Hk _ IHks]; [done|].
  rewrite !fmap_cons. by rewrite Hk, IHks.
Qed.

Lemma allStamped_skeleton el : allStamped (skeleton el) = allStamped el.
Proof.
  induction el as [t a st sel tx ks IH] using Element_ind'. simpl. f_equal.
  induction IH as [|k ks Hk _ IHks]; [done|].
  rewrite fmap_cons. simpl. by rewrite Hk, IHks.
Qed.

Lemma allStamped_kids el k :
  allStamped el = true → k ∈ kids el → allStamped k = true.
Proof.
  destruct el as [t a st sel tx ks]. simpl.
  intros [_ Hks]%andb_true_iff Hk. rewrite forallb_forall in Hks.
  by apply Hks, list_elem_of_In.
Qed.

Lemma allStamped_addressable el : allStamped el = true → addressable el ≠ [].
Proof.
  destruct el as [t a st sel tx ks]. simpl.
  intros [[v Hv]%bool_decide_eq_true _]%andb_true_iff.
  unfold dataId in *. simpl in *. by rewrite Hv.
Qed.

(** In a fully stamped tree, an element without an addressable descendant
    has no child at all. *)
Lemma allStamped_leaf el :
  allStamped el = true → hasAddressableDescendant el = false → kids el = [].
Proof.
  intros Hst Hno. unfold hasAddressableDescendant in Hno.
  apply bool_decide_eq_false in Hno.
  destruct (kids el) as [|k ks] eqn:Hks; [done|]. destruct Hno.
  rewrite bind_cons. intros [Hk _]%app_eq_nil.
  eapply allStamped_addressable, Hk. eapply allStamped_kids; [done|].
  rewrite Hks. by left.
Qed.

Section live_edit.
Context (p : Element → bool) (f : Element → Element).
Context (Hf : ∀ e, allStamped e = true → skeleton (f e) = skeleton e).

Lemma updateFirst_skeleton el el' :
  allStamped el = true → updateFirst p f el = Some el' →
  skeleton el' = skeleton el.
Proof.
  revert el'. induction el as [t a st sel tx ks IH] using Element_ind'.
  intros el' Hst. simpl. destruct (p _); [intros [= <-]; by apply Hf|].
  destruct (updateFirstOf _ ks) as [ks'|] eqn:Hks; [|done].
  simpl. intros [= <-]. simpl. f_equal.
  simpl in Hst. apply andb_true_iff in Hst as [_ Hst].
  clear -IH Hst Hks. revert ks' Hks.
  induction IH as [|k ks Hk _ IHks]; intros ks' Hks; [done|].
  simpl in Hst. apply andb_true_iff in Hst as [Hstk Hst].
  simpl in Hks. destruct (updateFirst p f k) as [k'|] eqn:Hk'.
  - simplify_eq. rewrite !fmap_cons. f_equal. by apply Hk.
  - destruct (updateFirstOf _ ks) as [ks''|]; [|done].
    simpl in Hks. simplify_eq. rewrite !fmap_cons. f_equal. by apply IHks.
Qed.

Lemma updateFirstOf_skeleton d d' :
  forallb allStamped d = true →
  updateFirstOf (updateFirst p f) d = Some d' →
  skeleton <$> d' = skeleton <$> d.
Proof.
  revert d'. induction d as [|k d IH]; intros d' Hst Hd; [done|].
  simpl in Hst. apply andb_true_iff in Hst as [Hstk Hst].
  simpl in Hd. destruct (updateFirst p f k) as [k'|] eqn:Hk'.
  - simplify_eq. rewrite !fmap_cons. f_equal. by eapply updateFirst_skeleton.
  - destruct (updateFirstOf _ d) as [d''|]; [|done].
    simpl in Hd. simplify_eq. rewrite !fmap_cons. f_equal. by apply IH.
Qed.

End live_edit.

Lemma forallb_allStamped_skeleton d d' :
  skeleton <$> d = skeleton <$> d' →
  forallb allStamped d = true → forallb allStamped d' = true.
Proof.
  revert d'. induction d as [|k d IH]; intros [|k' d'] Heq; try done.
  rewrite !fmap_cons in Heq. injection Heq as Hk Hd. simpl.
  rewrite !andb_true_iff. intros [Hstk Hst]. split; [|by eapply IH].
  by rewrite <-allStamped_skeleton, <-Hk, allStamped_skeleton.
Qed.

(** The pure-DOM commands keep the structure of a fully stamped tree. *)
Lemma liveEdit_skeleton cmd d :
  pureDom cmd → forallb allStamped d = true →
  skeleton <$> liveEdit cmd d = skeleton <$> d.
Proof.
  assert (∀ p f d, (∀ e, allStamped e = true → skeleton (f e) = skeleton e) →
            forallb allStamped d = true →
            skeleton <$> default d (updateFirstOf (updateFirst p f) d)
            = skeleton <$> d) as Hupd.
  { intros p f d0 Hf Hst.
    destruct (updateFirstOf _ d0) as [d'|] eqn:Hd; [|done].
    by eapply updateFirstOf_skeleton. }
  assert (skeleton <$> (clearSelected <$> d) = skeleton <$> d) as Hclear.
  { rewrite <-list_fmap_compose. apply list_fmap_ext. intros i e _.
    apply skeleton_clearSelected. }
  destruct cmd as [i c|i k v|i| | | | | |]; simpl; try done; intros _ Hst;
    unfold liveEdit; simpl;
    unfold updateContent, updateStyle, highlightElement, clearHighlight;
    rewrite ?updateDom_dom; simpl.
  - apply Hupd; [|done]. intros e He.
    destruct (hasAddressableDescendant e) eqn:Hd; [done|].
    destruct e as [t a st sel tx ks].
    apply allStamped_leaf in Hd; [|done]. simpl in Hd. by subst ks.
  - apply Hupd; [|done]. by intros [].
  - rewrite Hupd; [done|by intros []|].
    eapply forallb_allStamped_skeleton; [symmetry; exact Hclear|done].
Qed.

Lemma buildElement_allStamped cs lang fuel : ∀ c el,
  buildElement fuel cs lang c = Some el → allStamped el = true.
Proof.
  induction fuel as [|n IH]; intros c el Hel; [done|].
  destruct (buildElement_Some _ _ _ _ _ Hel)
    as (n' & ks & [= <-] & Hks & Hkids & Hattrs & _).
  destruct el as [t a st sel tx kk]. simpl in *. subst kk.
  apply andb_true_iff. split.
  - apply bool_decide_eq_true. unfold dataId. simpl. rewrite Hattrs.
    change (is_Some (dataId (stampElement c))).
    by rewrite dataId_stampElement.
  - clear Hel. induction Hks as [|ch k chs ks Hb _ IHks]; [done|].
    simpl. apply andb_true_iff. split; [by eapply IH|done].
Qed.

Lemma render_allStamped cs lang fuel d :
  render fuel cs lang = Some d → forallb allStamped d = true.
Proof.
  unfold render. destruct (rootComponent cs) as [r|]; [|by intros [= <-]].
  destruct (buildElement _ _ _ _) as [el|] eqn:Hel; [|done].
  intros [= <-]. simpl. by rewrite (buildElement_allStamped _ _ _ _ _ Hel).
Qed.

(** ** States of the page *)

Lemma reachable_inSync fuel s : reachable fuel s → inSync fuel s.
Proof.
  induction 1 as [b data s Hinit|e s s' _ (d & Hd & Hsk) Hstep].
  - unfold init in Hinit. destruct (buildDOM _ _) as [s0|] eqn:Hb; [|done].
    apply buildDOM_Some in Hb as (d & Hd & ->). simpl in Hinit, Hd.
    injection Hinit as <-. exists d. by destruct b.
  - unfold handleMessage in Hstep.
    case_decide as Hsrc; [|simplify_eq; by exists d].
    destruct (decide (pureDom (command e))) as [Hp|Hnp].
    { rewrite dispatch_pureDom in Hstep by done. simplify_eq.
      exists d. split; [done|]. simpl. rewrite liveEdit_skeleton; [done..|].
      eapply forallb_allStamped_skeleton; [exact Hsk|].
      by eapply render_allStamped. }
    destruct (decide (structural (command e))) as [Hs|Hns].
    { destruct (dispatch_structural_effect _ _ _ _ Hs Hstep) as [Hm Hf].
      destruct (decide (targetMissing (command e) s)) as [Hmiss|Hnm].
      - rewrite (Hm Hmiss). by exists d.
      - destruct (Hf Hnm) as (Hr & _). by exists (dom s'). }
    destruct (command e); simpl in *; try done. simplify_eq. by exists d.
Qed.

(** C7. In every state that the page reaches, [rebuild] with the store's own
    records returns, keeps the store, and leaves a tree of the same
    structure (tags, attributes, nesting) as the tree before the call; the
    state is exactly the one before when the tree before was the one built
    from the store, and a second such [rebuild] changes nothing. *)
Theorem rebuild_own_records_idempotent fuel s :
  reachable fuel s →
  ∃ s',
    handleMessage fuel (fromHost (Rebuild (Some (components s)))) s = Some s' ∧
    components s' = components s ∧
    skeleton <$> dom s' = skeleton <$> dom s ∧
    (render fuel (components s) (currentLang s) = Some (dom s) → s' = s) ∧
    handleMessage fuel (fromHost (Rebuild (Some (components s')))) s' = Some s'.
Proof.
  intros (d & Hd & Hsk)%reachable_inSync.
  exists (setDom d s). rewrite !handleMessage_fromHost. simpl.
  unfold buildDOM. simpl. rewrite Hd. simpl.
  split_and!; try done.
  intros Heq. injection Heq as ->. by destruct s.
Qed.

Lemma rebuild_own_records_idempotent_after_edit :
  ∃ s0 s1,
    init 6 true (mkDataJson None chainStore) = Some s0 ∧
    handleMessage 6 (fromHost (UpdateContent 4 "draft")) s0 = Some s1 ∧
    reachable 6 s1 ∧
    ∃ s', handleMessage 6 (fromHost (Rebuild (Some (components s1)))) s1
          = Some s' ∧
          components s' = components s1 ∧
          skeleton <$> dom s' = skeleton <$> dom s1.
Proof.
  destruct (init 6 true (mkDataJson None chainStore)) as [s0|] eqn:H0;
    [|vm_compute in H0; discriminate H0].
  destruct (handleMessage 6 (fromHost (UpdateContent 4 "draft")) s0) as [s1|] eqn:H1;
    [|unfold handleMessage in H1; simpl in H1; discriminate H1].
  assert (reachable 6 s1) as Hreach.
  { eapply reachable_message; [|exact H1]. eapply reachable_init. exact H0. }
  exists s0, s1. split; [reflexivity|]. split; [exact H1|]. split; [exact Hreach|].
  destruct (rebuild_own_records_idempotent 6 s1 Hreach) as (s' & Hs' & Hcs & Hsk & _).
  exists s'. split; [exact Hs'|]. split; [exact Hcs|exact Hsk].
Defined.

(** * The pure-DOM operations on the live tree *)

Section query.
Context (p : Element → bool).

Lemma querySelector_None el :
  querySelector p el = None ↔
  p el = false ∧ Forall (λ k, querySelector p k = None) (kids el).
Proof.
  destruct el as [t a st sel tx ks]. simpl.
  destruct (p _) eqn:Hp; [split; [done|by intros [? _]]|].
  split.
  - intros Hf. split; [done|]. clear Hp.
    induction ks as [|k ks IH]; [done|]. simpl in Hf.
    destruct (querySelector p k) eqn:Hk; [done|]. constructor; auto.
  - intros [_ Hall]. clear Hp. induction Hall as [|k ks Hk _ IH]; [done|].
    simpl. by rewrite Hk.
Qed.

(** An update finds an element exactly when the query does. *)
Lemma updateFirst_None f el :
  updateFirst p f el = None ↔ querySelector p el = None.
Proof.
  induction el as [t a st sel tx ks IH] using Element_ind'. simpl.
  destruct (p _); [done|].
  assert (updateFirstOf (updateFirst p f) ks = None
          ↔ firstOf (querySelector p) ks = None) as Hks.
  { induction IH as [|k ks Hk _ IHks]; [done|]. simpl.
    destruct (updateFirst p f k) eqn:Hu, (querySelector p k) eqn:Hq;
      try done;
      [by destruct Hk as [Ha Hb];
          try discriminate (Ha eq_refl); discriminate (Hb eq_refl)..|].
    rewrite fmap_None. exact IHks. }
  destruct (updateFirstOf _ ks); simpl; [|tauto].
  split; [done|]. intros Hq. by apply Hks in Hq.
Qed.

Lemma updateFirstOf_None f d :
  updateFirstOf (updateFirst p f) d = None ↔ querySelectorIn p d = None.
Proof.
  unfold querySelectorIn. induction d as [|k d IH]; [done|]. simpl.
  pose proof (updateFirst_None f k) as Hk.
  destruct (updateFirst p f k) eqn:Hu, (querySelector p k) eqn:Hq; try done;
    [by destruct Hk as [Ha Hb];
        try discriminate (Ha eq_refl); discriminate (Hb eq_refl)..|].
  rewrite fmap_None. exact IH.
Qed.

(** What the query returns satisfies the selector. *)
Lemma querySelector_Some el r : querySelector p el = Some r → p r = true.
Proof.
  revert r. induction el as [t a st sel tx ks IH] using Element_ind'.
  intros r. simpl. destruct (p _) eqn:Hp; [by intros [= <-]|]. clear Hp.
  induction IH as [|k ks Hk _ IHks]; [done|]. simpl.
  destruct (querySelector p k) eqn:Hq; [intros [= <-]; by apply Hk|done].
Qed.

Lemma querySelectorIn_Some d r : querySelectorIn p d = Some r → p r = true.
Proof.
  unfold querySelectorIn. induction d as [|k d IH]; [done|]. simpl.
  destruct (querySelector p k) eqn:Hq; [|done].
  intros [= <-]. by eapply querySelector_Some.
Qed.

(** From here on the selector looks at the attributes only, as an attribute
    selector does. *)
Context (Hattrs : ∀ e e', attrs e = attrs e' → p e = p e').

(** Updating in place with a function that keeps the attributes: the element
    found afterwards is the updated one. *)
Lemma updateFirst_query f el r :
  (∀ e, attrs (f e) = attrs e) → querySelector p el = Some r →
  ∃ el', updateFirst p f el = Some el' ∧ querySelector p el' = Some (f r).
Proof.
  intros Hf. revert r.
  induction el as [t a st sel tx ks IH] using Element_ind'.
  intros r. simpl. destruct (p _) eqn:Hp.
  - intros [= <-]. eexists. split; [done|].
    destruct (f _) as [t' a' st' sel' tx' ks'] eqn:Hfe. simpl.
    assert (p (mkElement t' a' st' sel' tx' ks') = true) as ->; [|done].
    rewrite <-Hp, <-Hfe. by apply Hattrs.
  - intros Hq.
    assert (∃ ks', updateFirstOf (updateFirst p f) ks = Some ks' ∧
                   firstOf (querySelector p) ks' = Some (f r))
      as (ks' & Hks' & Hq').
    { clear Hp. induction IH as [|k ks Hk _ IHks]; [done|]. simpl in *.
      destruct (querySelector p k) as [r0|] eqn:Hqk.
      - simplify_eq. destruct (Hk _ eq_refl) as (k' & -> & Hk').
        exists (k' :: ks). split; [done|]. simpl. by rewrite Hk'.
      - apply (updateFirst_None f) in Hqk as Hu. rewrite Hu.
        destruct (IHks Hq) as (ks' & -> & Hq'). exists (k :: ks').
        split; [done|]. simpl. by rewrite Hqk. }
    rewrite Hks'. simpl. eexists. split; [done|]. simpl.
    by rewrite (Hattrs (mkElement t a st sel tx ks')
                       (mkElement t a st sel tx ks) eq_refl), Hp.
Qed.

Lemma updateFirstOf_query f d r :
  (∀ e, attrs (f e) = attrs e) → querySelectorIn p d = Some r →
  ∃ d', updateFirstOf (updateFirst p f) d = Some d' ∧
        querySelectorIn p d' = Some (f r).
Proof.
  intros Hf. unfold querySelectorIn.
  induction d as [|k d IH]; [done|]. simpl.
  destruct (querySelector p k) as [r0|] eqn:Hqk.
  - intros [= <-]. destruct (updateFirst_query f k r0 Hf Hqk) as (k' & -> & Hk').
    exists (k' :: d). split; [done|]. simpl. by rewrite Hk'.
  - intros Hq. apply (updateFirst_None f) in Hqk as Hu. rewrite Hu.
    destruct (IH Hq) as (d' & -> & Hq'). exists (k :: d').
    split; [done|]. simpl. by rewrite Hqk.
Qed.



End query.

Lemma matchesId_attrs i e e' : attrs e = attrs e' → matchesId i e = matchesId i e'.
Proof. unfold matchesId, dataId. by intros ->. Qed.

(** The id selector finds nothing exactly when no element carries the id. *)
Lemma querySelector_matchesId_None i el :
  querySelector (matchesId i) el = None ↔ pretty i ∉ addressable el.
Proof.
  induction el as [t a st sel tx ks IH] using Element_ind'. simpl.
  assert (firstOf (querySelector (matchesId i)) ks = None
          ↔ pretty i ∉ ks ≫= addressable) as Hks.
  { induction IH as [|k ks Hk _ IHks]; simpl.
    - split; [intros _ []%elem_of_nil|done].
    - rewrite not_elem_of_app, <-Hk, <-IHks.
      destruct (querySelector (matchesId i) k); [|tauto].
      split; [done|by intros [? _]]. }
  rewrite not_elem_of_app, <-Hks. unfold matchesId, dataId. simpl.
  destruct (a !! DATA_ID) as [v|] eqn:Hv; simpl.
  - rewrite list_elem_of_singleton. case_bool_decide as Heq.
    + simplify_eq. split; [done|]. by intros [? _].
    + split; [|tauto]. intros ?. split; [congruence|done].
  - split; [|tauto]. intros ?. split; [by intros ?%elem_of_nil|done].
Qed.

Lemma querySelectorIn_matchesId_None i d :
  querySelectorIn (matchesId i) d = None ↔ pretty i ∉ d ≫= addressable.
Proof.
  unfold querySelectorIn. induction d as [|k d IH]; simpl.
  - split; [intros _ []%elem_of_nil|done].
  - rewrite not_elem_of_app, <-IH, <-querySelector_matchesId_None.
    destruct (querySelector (matchesId i) k); [|tauto].
    split; [done|by intros [? _]].
Qed.

Lemma addressable_clearSelected el :
  addressable (clearSelected el) = addressable el.
Proof.
  induction el as [t a st sel tx ks IH] using Element_ind'. simpl. f_equal.
  induction IH as [|k ks Hk _ IHks]; [done|].
  rewrite fmap_cons, !bind_cons. by rewrite Hk, IHks.
Qed.

Lemma selectedIds_clearSelected el : selectedIds (clearSelected el) = [].
Proof.
  induction el as [t a st sel tx ks IH] using Element_ind'. simpl.
  induction IH as [|k ks Hk _ IHks]; [done|].
  rewrite fmap_cons, bind_cons. rewrite Hk. exact IHks.
Qed.

Lemma liveText_clearSelected el : liveText (clearSelected el) = liveText el.
Proof.
  induction el as [t a st sel tx ks IH] using Element_ind'. simpl. f_equal.
  induction IH as [|k ks Hk _ IHks]; [done|].
  rewrite fmap_cons, !bind_cons. by rewrite Hk, IHks.
Qed.

Lemma bind_fmap_clearSelected {B} (f : Element → list B) d :
  (∀ el, f (clearSelected el) = f el) → (clearSelected <$> d) ≫= f = d ≫= f.
Proof.
  intros Hf. induction d as [|k d IH]; [done|].
  rewrite fmap_cons, !bind_cons. by rewrite Hf, IH.
Qed.

(** Selecting the first match in a tree without selection selects exactly
    that element. *)
Lemma updateFirst_select i el el' :
  selectedIds el = [] →
  updateFirst (matchesId i) (setSelected true) el = Some el' →
  selectedIds el' = [Some (pretty i)].
Proof.
  revert el'. induction el as [t a st sel tx ks IH] using Element_ind'.
  intros el'. simpl. intros Hsel.
  apply app_eq_nil in Hsel as [Hself Hkids].
  destruct sel; [done|]. clear Hself.
  destruct (matchesId i _) eqn:Hm.
  - intros [= <-]. simpl.
    apply bool_decide_eq_true in Hm. unfold dataId in *. simpl in *.
    by rewrite Hm, Hkids.
  - destruct (updateFirstOf _ ks) as [ks'|] eqn:Hks; [|done].
    simpl. intros [= <-]. simpl.
    clear Hm. revert ks' Hks.
    induction IH as [|k ks Hk _ IHks]; intros ks' Hks; [done|].
    rewrite bind_cons in Hkids. apply app_eq_nil in Hkids as [Hk0 Hks0].
    simpl in Hks. destruct (updateFirst _ _ k) as [k'|] eqn:Hu.
    + simplify_eq. rewrite bind_cons, Hks0, (Hk k') by done. done.
    + destruct (updateFirstOf _ ks) as [ks''|]; [|done]. simpl in Hks.
      simplify_eq. rewrite bind_cons, Hk0. simpl. by apply IHks.
Qed.

Lemma updateFirstOf_select i d d' :
  d ≫= selectedIds = [] →
  updateFirstOf (updateFirst (matchesId i) (setSelected true)) d = Some d' →
  d' ≫= selectedIds = [Some (pretty i)].
Proof.
  revert d'. induction d as [|k d IH]; intros d' Hsel Hd; [done|].
  rewrite bind_cons in Hsel. apply app_eq_nil in Hsel as [Hk0 Hd0].
  simpl in Hd. destruct (updateFirst _ _ k) as [k'|] eqn:Hu.
  - simplify_eq. rewrite bind_cons, Hd0, (updateFirst_select i k k') by done.
    done.
  - destruct (updateFirstOf _ d) as [d''|]; [|done]. simpl in Hd.
    simplify_eq. rewrite bind_cons, Hk0. simpl. by apply IH.
Qed.

(** X1. [update-content] and [update-style] with an id that no element of
    the page carries change nothing: the state after is the state before. *)
Theorem update_of_missing_element_is_noop i s :
  pretty i ∉ dom s ≫= addressable →
  (∀ newContent, updateContent i newContent s = s) ∧
  (∀ styleKey value, updateStyle i styleKey value s = s).
Proof.
  intros Hmiss%querySelectorIn_matchesId_None.
  split; intros; unfold updateContent, updateStyle, updateDom;
    by rewrite (proj2 (updateFirstOf_None _ _ _) Hmiss).
Qed.

(** X2. [highlight] leaves at most one element selected: the first element,
    in document order, that carries the id; when no element carries it, the
    call is not a no-op, it clears whatever was selected before. *)
Theorem highlight_selects_exactly_the_target i s :
  dom (highlightElement i s) ≫= selectedIds =
    (if decide (pretty i ∈ dom s ≫= addressable) then [Some (pretty i)] else [])
  ∧
  (pretty i ∉ dom s ≫= addressable → highlightElement i s = clearHighlight s).
Proof.
  assert (dom (clearHighlight s) ≫= selectedIds = []) as Hclear.
  { simpl. induction (dom s) as [|k d IH]; [done|].
    rewrite fmap_cons, bind_cons, selectedIds_clearSelected. exact IH. }
  assert (dom (clearHighlight s) ≫= addressable = dom s ≫= addressable) as Haddr.
  { simpl. apply bind_fmap_clearSelected, addressable_clearSelected. }
  unfold highlightElement, updateDom.
  destruct (updateFirstOf _ (dom (clearHighlight s))) as [d'|] eqn:Hu.
  - assert (pretty i ∈ dom s ≫= addressable) as Hin.
    { rewrite <-Haddr. destruct (decide (pretty i ∈ dom (clearHighlight s) ≫= addressable));
        [done|].
      apply querySelectorIn_matchesId_None in n.
      apply (updateFirstOf_None _ (setSelected true)) in n. congruence. }
    split; [|done]. rewrite decide_True by done. simpl.
    by eapply updateFirstOf_select.
  - apply updateFirstOf_None, querySelectorIn_matchesId_None in Hu.
    rewrite Haddr in Hu. split; [|done]. by rewrite decide_False.
Qed.

Lemma update_of_missing_element_is_noop_on_chain :
  (pretty 99 ∉ dom chainPage ≫= addressable) ∧
  updateContent 99 "draft" chainPage = chainPage ∧
  updateStyle 99 "color" "red" chainPage = chainPage.
Proof.
  assert (pretty 99 ∉ dom chainPage ≫= addressable) as Hmiss
    by compute_done.
  split; [exact Hmiss|].
  destruct (update_of_missing_element_is_noop 99 chainPage Hmiss) as [Hc Hs].
  split; [apply Hc|apply Hs].
Defined.

Lemma highlight_selects_exactly_the_target_on_chain :
  dom (highlightElement 4 chainPage) ≫= selectedIds = [Some "4"] ∧
  (pretty 99 ∉ dom chainPage ≫= addressable) ∧
  highlightElement 99 (highlightElement 4 chainPage)
  = clearHighlight (highlightElement 4 chainPage) ∧
  dom (highlightElement 99 (highlightElement 4 chainPage)) ≫= selectedIds = [].
Proof.
  assert (pretty 99 ∉ dom chainPage ≫= addressable) as Hmiss
    by compute_done.
  assert (pretty 99 ∉ dom (highlightElement 4 chainPage) ≫= addressable) as Hmiss'
    by compute_done.
  destruct (highlight_selects_exactly_the_target 4 chainPage) as [H4 _].
  destruct (highlight_selects_exactly_the_target 99 (highlightElement 4 chainPage))
    as [H99 Hclear].
  split_and!.
  - rewrite H4. reflexivity.
  - exact Hmiss.
  - exact (Hclear Hmiss').
  - rewrite H99. by rewrite decide_False.
Defined.

(** X3. [update-content] acts on the first element that carries the id: when
    that element has a descendant with an identity attribute the call changes
    nothing; otherwise the element found under the id afterwards is the same
    element with the new text and no children. *)
Theorem updateContent_only_on_leaves i newContent s el :
  querySelectorIn (matchesId i) (dom s) = Some el →
  (hasAddressableDescendant el = true → updateContent i newContent s = s) ∧
  (hasAddressableDescendant el = false →
   querySelectorIn (matchesId i) (dom (updateContent i newContent s))
   = Some (setTextContent newContent el) ∧
   components (updateContent i newContent s) = components s).
Proof.
  intros Hq.
  set (f := λ e : Element,
         if hasAddressableDescendant e then e else setTextContent newContent e).
  assert (∀ e, attrs (f e) = attrs e) as Hf.
  { intros e. unfold f. by destruct (hasAddressableDescendant e). }
  destruct (updateFirstOf_query (matchesId i) (matchesId_attrs i) f (dom s) el Hf Hq)
    as (d' & Hd' & Hq').
  split.
  - intros Hdesc.
    assert (∀ e, f (f e) = f e) as Hff.
    { intros e. unfold f. destruct (hasAddressableDescendant e) eqn:He.
      - by rewrite He.
      - done. }
    unfold updateContent, updateDom. fold f. rewrite Hd'.
    enough (d' = dom s) as -> by by destruct s.
    clear Hq'. revert d' Hd'. unfold querySelectorIn in Hq.
    assert (f el = el) as Hel by (unfold f; by rewrite Hdesc).
    assert (∀ k r k', querySelector (matchesId i) k = Some r → f r = r →
              updateFirst (matchesId i) f k = Some k' → k' = k) as Hone.
    { clear. intros k. induction k as [t a st sel tx ks IH] using Element_ind'.
      intros r k'. simpl. destruct (matchesId i _) eqn:Hm.
      - intros [= <-] Hr [= <-]. done.
      - destruct (updateFirstOf _ ks) as [ks'|] eqn:Hks; [|done].
        simpl. intros Hq Hr [= <-]. f_equal.
        clear Hm. revert ks' Hks.
        induction IH as [|k ks Hk _ IHks]; intros ks' Hks; [done|].
        simpl in Hq, Hks.
        destruct (querySelector (matchesId i) k) as [r0|] eqn:Hqk.
        + simplify_eq. destruct (updateFirst _ f k) as [k'|] eqn:Hu.
          * simplify_eq. f_equal. by eapply Hk.
          * apply updateFirst_None in Hu. congruence.
        + rewrite (proj2 (updateFirst_None _ f k) Hqk) in Hks.
          destruct (updateFirstOf _ ks) as [ks''|]; [|done]. simpl in Hks.
          simplify_eq. f_equal. by apply IHks. }
    induction (dom s) as [|k d IH]; intros d' Hd'; [done|]. simpl in Hq, Hd'.
    destruct (querySelector (matchesId i) k) as [r0|] eqn:Hqk.
    + simplify_eq. destruct (updateFirst _ f k) as [k'|] eqn:Hu.
      * simplify_eq. f_equal. by eapply Hone.
      * apply updateFirst_None in Hu. congruence.
    + rewrite (proj2 (updateFirst_None _ f k) Hqk) in Hd'.
      destruct (updateFirstOf _ d) as [d''|]; [|done]. simpl in Hd'.
      simplify_eq. f_equal. by apply IH.
  - intros Hleaf. unfold updateContent, updateDom. fold f. rewrite Hd'.
    simpl. split; [|done]. rewrite Hq'. unfold f. by rewrite Hleaf.
Qed.

Lemma updateContent_only_on_leaves_on_chain :
  ∃ root leaf,
    querySelectorIn (matchesId 0) (dom chainPage) = Some root ∧
    hasAddressableDescendant root = true ∧
    updateContent 0 "draft" chainPage = chainPage ∧
    querySelectorIn (matchesId 4) (dom chainPage) = Some leaf ∧
    hasAddressableDescendant leaf = false ∧
    querySelectorIn (matchesId 4) (dom (updateContent 4 "draft" chainPage))
    = Some (setTextContent "draft" leaf).
Proof.
  destruct (querySelectorIn (matchesId 0) (dom chainPage)) as [root|] eqn:H0;
    [|vm_compute in H0; discriminate H0].
  destruct (querySelectorIn (matchesId 4) (dom chainPage)) as [leaf|] eqn:H4;
    [|vm_compute in H4; discriminate H4].
  assert (hasAddressableDescendant root = true) as Hroot.
  { vm_compute in H0. injection H0 as <-. vm_compute. reflexivity. }
  assert (hasAddressableDescendant leaf = false) as Hleaf.
  { vm_compute in H4. injection H4 as <-. vm_compute. reflexivity. }
  exists root, leaf. split; [reflexivity|]. split; [exact Hroot|].
  split; [exact (proj1 (updateContent_only_on_leaves 0 "draft" chainPage root H0) Hroot)|].
  split; [reflexivity|]. split; [exact Hleaf|].
  exact (proj1 (proj2 (updateContent_only_on_leaves 4 "draft" chainPage leaf H4) Hleaf)).
Defined.


(** X5. [clear-highlight] leaves no element selected and touches nothing
    else: the store, the text of every element and the structure of the tree
    stay, and a second call changes nothing. *)
Theorem clearHighlight_only_clears_selection s :
  dom (clearHighlight s) ≫= selectedIds = [] ∧
  components (clearHighlight s) = components s ∧
  dom (clearHighlight s) ≫= liveText = dom s ≫= liveText ∧
  dom (clearHighlight s) ≫= addressable = dom s ≫= addressable ∧
  skeleton <$> dom (clearHighlight s) = skeleton <$> dom s ∧
  clearHighlight (clearHighlight s) = clearHighlight s.
Proof.
  assert (∀ el, clearSelected (clearSelected el) = clearSelected el) as Hidem.
  { intros el. induction el as [t a st sel tx ks IH] using Element_ind'.
    simpl. f_equal. induction IH as [|k ks Hk _ IHks]; [done|].
    rewrite !fmap_cons. by rewrite Hk, IHks. }
  split_and!.
  - simpl. induction (dom s) as [|k d IH]; [done|].
    rewrite fmap_cons, bind_cons, selectedIds_clearSelected. exact IH.
  - done.
  - apply bind_fmap_clearSelected, liveText_clearSelected.
  - apply bind_fmap_clearSelected, addressable_clearSelected.
  - simpl. rewrite <-list_fmap_compose. apply list_fmap_ext.
    intros ? e _. apply skeleton_clearSelected.
  - unfold clearHighlight, setDom. simpl. f_equal.
    rewrite <-list_fmap_compose. apply list_fmap_ext. intros ? e _. apply Hidem.
Qed.


(** * The store under the structural operations *)

Lemma list_find_insert_same_id (cs : list Component) i k comp c' :
  list_find (λ c, id c = i) cs = Some (k, comp) → id c' = i →
  list_find (λ c, id c = i) (<[k := c']> cs) = Some (k, c').
Proof.
  intros (Hk & Hid & Hfirst)%list_find_Some Hid'.
  apply list_find_Some. split_and!.
  - apply list_lookup_insert_eq. by eapply lookup_lt_Some.
  - done.
  - intros j y Hj Hlt. rewrite list_lookup_insert_ne in Hj by lia.
    by eapply Hfirst.
Qed.

(** X6. Two [reorder] of the same id in a row are the second alone. *)
Theorem reorder_twice_is_last fuel i n1 n2 s s1 :
  reorderComponent fuel i n1 s = Some s1 →
  reorderComponent fuel i n2 s1 = reorderComponent fuel i n2 s.
Proof.
  unfold reorderComponent at 1.
  destruct (list_find _ (components s)) as [[k comp]|] eqn:Hf;
    [|by intros [= <-]].
  intros (d & Hd & ->)%buildDOM_Some. unfold reorderComponent. simpl.
  rewrite Hf.
  rewrite (list_find_insert_same_id _ _ _ _ (set_order n1 comp) Hf)
    by by apply list_find_Some in Hf as (_ & ? & _).
  rewrite list_insert_insert_eq. unfold buildDOM. simpl.
  by destruct (render _ _ _).
Qed.

Lemma reorder_twice_is_last_on_chain :
  ∃ s1, reorderComponent 6 4 7 chainPage = Some s1 ∧
        reorderComponent 6 4 (-1) s1 = reorderComponent 6 4 (-1) chainPage ∧
        (id <$> childrenOf (components s1) (mkRec 0 None None)) = [1; 4].
Proof.
  destruct (reorderComponent 6 4 7 chainPage) as [s1|] eqn:H1;
    [|vm_compute in H1; discriminate H1].
  exists s1. split; [reflexivity|].
  split; [exact (reorder_twice_is_last 6 4 7 (-1) chainPage s1 H1)|].
  vm_compute in H1. injection H1 as <-. reflexivity.
Defined.

Lemma findChildren_no_children fuel cs parent acc :
  Forall (λ c, parentId c ≠ Some parent) cs →
  findChildren (S fuel) cs parent acc = Some acc.
Proof.
  intros Hno. simpl.
  assert (filter (isChildOf parent) cs = []) as ->; [|done].
  induction Hno as [|c cs Hc _ IH]; [done|].
  rewrite filter_cons_False by done. exact IH.
Qed.

Lemma filter_fresh_id (cs : list Component) c :
  id c ∉ id <$> cs →
  filter (λ x, id x ∉ [id c]) (cs ++ [c]) = cs.
Proof.
  intros Hfresh. rewrite filter_app.
  rewrite (filter_cons_False _ c) by (intros H; apply H; by left).
  rewrite filter_nil, app_nil_r.
  induction cs as [|x cs IH]; [done|].
  rewrite fmap_cons, not_elem_of_cons in Hfresh. destruct Hfresh as [Hne Hfresh].
  rewrite filter_cons_True.
  - f_equal. by apply IH.
  - intros ?%list_elem_of_singleton. congruence.
Qed.

(** X7. Adding a record and then deleting its id is a round trip: when the
    id is new, no record names it as parent, and the page showed the tree of
    the store, the page and the store are back to what they were. *)
Theorem add_then_delete_round_trip fuel c s s1 :
  render fuel (components s) (currentLang s) = Some (dom s) →
  id c ∉ id <$> components s →
  Forall (λ x, parentId x ≠ Some (id c)) (components s ++ [c]) →
  (0 < fuel)%nat →
  addComponent fuel c s = Some s1 →
  deleteComponent fuel (id c) s1 = Some s.
Proof.
  intros Hsync Hfresh Hleaf Hfuel (d & Hd & ->)%buildDOM_Some.
  destruct fuel as [|n]; [lia|].
  unfold deleteComponent. simpl components.
  rewrite findChildren_no_children by done. simpl.
  rewrite filter_fresh_id by done.
  apply buildDOM_Some. exists (dom s). split; [done|by destruct s].
Qed.

Lemma add_then_delete_round_trip_on_chain :
  ∃ s1, addComponent 7 (mkRec 9 (Some 4) None) chainPage = Some s1 ∧
        id <$> components s1 = [0; 1; 2; 3; 4; 9] ∧
        deleteComponent 7 9 s1 = Some chainPage.
Proof.
  destruct (addComponent 7 (mkRec 9 (Some 4) None) chainPage) as [s1|] eqn:H1;
    [|vm_compute in H1; discriminate H1].
  exists s1. split; [reflexivity|]. split.
  - vm_compute in H1. injection H1 as <-. reflexivity.
  - apply (add_then_delete_round_trip 7 (mkRec 9 (Some 4) None) chainPage s1).
    + vm_compute. reflexivity.
    + compute_done.
    + repeat constructor; discriminate.
    + lia.
    + exact H1.
Defined.

(** X8. [delete-component] is idempotent: after a deletion no record has
    the id or names it as parent, and deleting the id again changes
    nothing. *)
Theorem delete_twice_is_once fuel i s s1 :
  cycleFree (components s) i → (length (components s) < fuel)%nat →
  deleteComponent fuel i s = Some s1 →
  Forall (λ c, id c ≠ i ∧ parentId c ≠ Some i) (components s1) ∧
  deleteComponent fuel i s1 = Some s1.
Proof.
  intros Hcf Hlen Hdel. unfold deleteComponent in Hdel.
  destruct (findChildren_spec (components s) fuel [] i [i]) as (ids & Hids & Hmem);
    [by apply pathTo_nil|simpl; lia|].
  rewrite Hids in Hdel. simpl in Hdel.
  apply buildDOM_Some in Hdel as (d & Hd & ->). simpl in *.
  set (cs1 := filter (λ c, id c ∉ ids) (components s)) in *.
  assert (Forall (λ c, id c ≠ i ∧ parentId c ≠ Some i) cs1) as Hgone.
  { apply Forall_forall. intros c [Hnot Hc]%list_elem_of_filter.
    rewrite Hmem, list_elem_of_singleton in Hnot. split; [tauto|].
    intros Hp. apply Hnot. right. apply tc_once. by exists c. }
  split; [done|].
  destruct fuel as [|n]; [lia|].
  unfold deleteComponent. simpl components.
  rewrite findChildren_no_children
    by (eapply Forall_impl; [exact Hgone|]; by intros c [_ ?]).
  simpl.
  assert (filter (λ c, id c ∉ [i]) cs1 = cs1) as ->.
  { clear -Hgone. induction Hgone as [|c cs [Hc _] _ IH]; [done|].
    rewrite filter_cons_True; [by rewrite IH|].
    by intros ?%list_elem_of_singleton. }
  apply buildDOM_Some. exists d. split; [done|by destruct s].
Qed.

Lemma delete_twice_is_once_on_chain :
  ∃ s1, deleteComponent 6 1 chainPage = Some s1 ∧
        id <$> components s1 = [0; 4] ∧
        deleteComponent 6 1 s1 = Some s1.
Proof.
  destruct (deleteComponent 6 1 chainPage) as [s1|] eqn:H1;
    [|vm_compute in H1; discriminate H1].
  exists s1. split; [reflexivity|]. split.
  - vm_compute in H1. injection H1 as <-. reflexivity.
  - apply (delete_twice_is_once 6 1 chainPage s1); [| |exact H1].
    + apply acyclic_cycleFree, (rankedBy_acyclic Z.to_nat). reflexivity.
    + simpl. lia.
Defined.

(** X9. Deleting an id that every record is at or below (the root of a
    store whose records are all reachable) empties the store and the page. *)
Theorem delete_root_empties_page fuel i s :
  cycleFree (components s) i → (length (components s) < fuel)%nat →
  Forall (λ c, rtc (childId (components s)) i (id c)) (components s) →
  deleteComponent fuel i s = Some (setDom [] (setComponents [] s)).
Proof.
  intros Hcf Hlen Hall. unfold deleteComponent.
  destruct (findChildren_spec (components s) fuel [] i [i]) as (ids & -> & Hmem);
    [by apply pathTo_nil|simpl; lia|]. simpl.
  assert (filter (λ c, id c ∉ ids) (components s) = []) as ->; [|done].
  induction Hall as [|c cs Hc _ IH]; [done|].
  rewrite filter_cons_False; [exact IH|].
  intros Hnot. apply Hnot, Hmem. rewrite list_elem_of_singleton.
  apply rtc_tc in Hc as [->|?]; [by left|by right].
Qed.

Lemma delete_root_empties_page_on_chain :
  deleteComponent 6 0 chainPage = Some (mkState [] "en" [] [EzuiReady 5 "en"]).
Proof.
  assert (∀ j p, mkRec j (Some p) None ∈ chainStore →
                 childId chainStore p j) as Hstep.
  { intros j p Hin. by exists (mkRec j (Some p) None). }
  assert (childId chainStore 0 1) as H01 by (apply Hstep; compute_done).
  assert (childId chainStore 1 2) as H12 by (apply Hstep; compute_done).
  assert (childId chainStore 2 3) as H23 by (apply Hstep; compute_done).
  assert (childId chainStore 0 4) as H04 by (apply Hstep; compute_done).
  apply (delete_root_empties_page 6 0 chainPage).
  - apply acyclic_cycleFree, (rankedBy_acyclic Z.to_nat). reflexivity.
  - simpl. lia.
  - repeat constructor; simpl.
    + by apply rtc_once.
    + eapply rtc_l; [exact H01|]. by apply rtc_once.
    + eapply rtc_l; [exact H01|]. eapply rtc_l; [exact H12|]. by apply rtc_once.
    + by apply rtc_once.
Defined.

Lemma sameLinks_childId cs cs' p x :
  Forall2 sameLinks cs cs' → childId cs p x ↔ childId cs' p x.
Proof.
  intros Hlinks. split.
  - intros (c & Hc & Hp & Hx). apply list_elem_of_lookup in Hc as [j Hj].
    destruct (Forall2_lookup_l _ _ _ _ _ Hlinks Hj) as (c' & Hj' & Hid & Hpar).
    exists c'. split_and!; [by eapply list_elem_of_lookup_2|congruence..].
  - intros (c' & Hc & Hp & Hx). apply list_elem_of_lookup in Hc as [j Hj].
    destruct (Forall2_lookup_r _ _ _ _ _ Hlinks Hj) as (c & Hj' & Hid & Hpar).
    exists c. split_and!; [by eapply list_elem_of_lookup_2|congruence..].
Qed.

Lemma sameLinks_ids cs cs' :
  Forall2 sameLinks cs cs' → id <$> cs' = id <$> cs.
Proof.
  induction 1 as [|c c' l l' [Hid _] _ IH]; [done|].
  by rewrite !fmap_cons, IH, Hid.
Qed.

Lemma rootComponent_cons c l :
  rootComponent (c :: l) =
    if decide (parentId c = None) then Some c else rootComponent l.
Proof.
  unfold rootComponent, list_find. simpl. unfold isRoot at 1.
  destruct (decide (parentId c = None)); [done|].
  by destruct (_ l) as [[? ?]|].
Qed.

Lemma sameLinks_rootComponent cs cs' :
  Forall2 sameLinks cs cs' →
  option_Forall2 sameLinks (rootComponent cs) (rootComponent cs').
Proof.
  induction 1 as [|c c' l l' [Hid Hpar] _ IH]; [constructor|].
  rewrite !rootComponent_cons.
  destruct (decide (parentId c = None)), (decide (parentId c' = None));
    try congruence; by constructor.
Qed.

Lemma sameLinks_reorder (cs : list Component) k comp n :
  cs !! k = Some comp → Forall2 sameLinks cs (<[k := set_order n comp]> cs).
Proof.
  intros Hk. apply Forall2_same_length_lookup. split; [by rewrite length_insert|].
  intros j c c' Hc Hc'. destruct (decide (k = j)) as [->|Hne].
  - rewrite list_lookup_insert_eq in Hc' by by eapply lookup_lt_Some.
    by simplify_eq.
  - rewrite list_lookup_insert_ne in Hc' by done. by simplify_eq.
Qed.

Lemma sameLinks_acyclic cs cs' :
  Forall2 sameLinks cs cs' → acyclic cs → acyclic cs'.
Proof.
  intros Hl Hac x Hx. apply (Hac x).
  assert (∀ a b, descendantId cs' a b → descendantId cs a b) as Hsub; [|auto].
  clear x Hx. intros a b Hx.
  induction Hx as [a b H|a b c H _ IH].
  - apply tc_once. exact (proj2 (sameLinks_childId _ _ _ _ Hl) H).
  - eapply tc_l; [exact (proj2 (sameLinks_childId _ _ _ _ Hl) H)|done].
Qed.

(** X10. [reorder] and [delete-component] keep the store well formed: the
    ids stay unique, no parent cycle appears, and no id is added; [reorder]
    keeps every id and every parent link in place. *)
Theorem reorder_and_delete_keep_store_invariants fuel cmd s s' :
  (∃ i, cmd = DeleteComponent i ∨ ∃ n, cmd = Reorder i n) →
  handleMessage fuel (fromHost cmd) s = Some s' →
  (uniqueIds (components s) → uniqueIds (components s')) ∧
  (acyclic (components s) → acyclic (components s')) ∧
  id <$> components s' ⊆ id <$> components s ∧
  (∀ i n, cmd = Reorder i n → Forall2 sameLinks (components s) (components s')).
Proof.
  rewrite handleMessage_fromHost.
  intros (i & [->|(n & ->)]) Hd.
  - destruct (dispatch_structural_effect (DeleteComponent i) s fuel s' I Hd)
      as [_ Hf].
    destruct Hf as (_ & _ & _ & ids & _ & ->); [by intros []|].
    pose proof (sublist_filter (λ c, id c ∉ ids) (components s)) as Hsub.
    split_and!.
    + intros Hu. eapply sublist_NoDup; [exact Hu|]. by apply fmap_sublist.
    + apply acyclic_mono. intros c Hc. by eapply elem_of_sublist.
    + intros x Hx. eapply elem_of_sublist; [exact Hx|]. by apply fmap_sublist.
    + by intros ? ? [=].
  - destruct (dispatch_structural_effect (Reorder i n) s fuel s' I Hd)
      as [Hm Hf].
    destruct (decide (targetMissing (Reorder i n) s)) as [Hmiss|Hnm].
    + rewrite (Hm Hmiss). split_and!; try done.
      intros _ _ _. apply Forall2_same_length_lookup. split; [done|].
      intros j c c' ? ?. by simplify_eq.
    + destruct (Hf Hnm) as (_ & _ & _ & k & comp & Hk & _ & _ & ->).
      pose proof (sameLinks_reorder _ _ _ n Hk) as Hl.
      split_and!.
      * unfold uniqueIds. by rewrite (sameLinks_ids _ _ Hl).
      * by apply sameLinks_acyclic.
      * by rewrite (sameLinks_ids _ _ Hl).
      * by intros ? ? [= <- <-].
Qed.

Lemma reorder_and_delete_keep_store_invariants_on_chain :
  ∃ s', handleMessage 6 (fromHost (DeleteComponent 2)) chainPage = Some s' ∧
        uniqueIds (components s') ∧ acyclic (components s') ∧
        id <$> components s' = [0; 1; 4].
Proof.
  destruct (handleMessage 6 (fromHost (DeleteComponent 2)) chainPage) as [s'|] eqn:H1;
    [|vm_compute in H1; discriminate H1].
  destruct (reorder_and_delete_keep_store_invariants 6 (DeleteComponent 2)
              chainPage s') as (Hu & Hac & _); [by exists 2; left|exact H1|].
  exists s'. split; [reflexivity|]. split_and!.
  - apply Hu. unfold uniqueIds. compute_done.
  - apply Hac. apply (rankedBy_acyclic Z.to_nat). reflexivity.
  - vm_compute in H1. injection H1 as <-. reflexivity.
Defined.

(** * The cycle hazard *)

Lemma cycle_below_has_child cs c y :
  rtc (childId cs) (id c) y → descendantId cs y y →
  ∃ ch, ch ∈ childrenOf cs c ∧ rtc (childId cs) (id ch) y.
Proof.
  intros Hreach Hcyc.
  assert (∃ z, childId cs (id c) z ∧ rtc (childId cs) z y) as (z & Hz & Hzy).
  { apply rtc_inv in Hreach as [<-|(z & Hz & Hzy)]; [|by exists z].
    inversion Hcyc as [? ? H|? z ? H Hzy]; subst.
    - by exists (id c).
    - exists z. split; [done|by apply tc_rtc]. }
  destruct Hz as (ch & Hch & Hp & <-). exists ch.
  split; [by apply elem_of_childrenOf|done].
Qed.

Lemma buildElement_diverges cs lang y fuel : ∀ c,
  rtc (childId cs) (id c) y → descendantId cs y y →
  buildElement fuel cs lang c = None.
Proof.
  induction fuel as [|n IH]; intros c Hreach Hcyc; [done|].
  destruct (cycle_below_has_child cs c y Hreach Hcyc) as (ch & Hch & Hchy).
  rewrite buildElement_S. destruct (childrenOf cs c) as [|c0 chs] eqn:Heq.
  { by apply elem_of_nil in Hch. }
  rewrite (proj2 (mapM_None _ _)); [done|].
  apply Exists_exists. exists ch. split; [done|]. by apply IH.
Qed.

(** X11. [buildElement] returns exactly when no parent cycle lies at or
    below the record: with a cycle there it never returns, whatever the
    stack depth, and without one it returns as soon as the depth exceeds the
    number of records. *)
Theorem buildElement_returns_iff_cycle_free cs lang c :
  (∀ fuel, (length cs < fuel)%nat →
     (is_Some (buildElement fuel cs lang c) ↔ cycleFree cs (id c))) ∧
  (∀ y, rtc (childId cs) (id c) y → descendantId cs y y →
     ∀ fuel, buildElement fuel cs lang c = None).
Proof.
  split.
  - intros fuel Hlen. split.
    + intros [el Hel] y Hy Hcyc.
      by rewrite (buildElement_diverges cs lang y fuel c Hy Hcyc) in Hel.
    + intros Hcf. by apply buildElement_total.
  - intros y Hy Hcyc fuel. by eapply buildElement_diverges.
Qed.

Lemma buildElement_returns_iff_cycle_free_on_loop :
  rtc (childId loopStore) 0 1 ∧ descendantId loopStore 1 1 ∧
  ∀ fuel, buildElement fuel loopStore "en" (mkRec 0 None None) = None.
Proof.
  assert (childId loopStore 0 1) as H01.
  { exists (mkRec 1 (Some 0) None). split; [compute_done|done]. }
  assert (childId loopStore 1 1) as H11.
  { exists (mkRec 1 (Some 1) None). split; [compute_done|done]. }
  assert (rtc (childId loopStore) 0 1) as Hr by by apply rtc_once.
  assert (descendantId loopStore 1 1) as Hc by by apply tc_once.
  split; [exact Hr|]. split; [exact Hc|].
  exact (proj2 (buildElement_returns_iff_cycle_free loopStore "en"
                  (mkRec 0 None None)) 1 Hr Hc).
Defined.

Lemma findChildren_diverges cs y fuel : ∀ parent acc,
  rtc (childId cs) parent y → descendantId cs y y →
  findChildren fuel cs parent acc = None.
Proof.
  induction fuel as [|n IH]; intros parent acc Hreach Hcyc; [done|].
  destruct (cycle_below_has_child cs (mkRec parent None None) y Hreach Hcyc)
    as (ch & [Hch Hp]%elem_of_childrenOf & Hchy).
  simpl in Hp. simpl.
  assert (ch ∈ filter (isChildOf parent) cs) as Hin
    by by apply list_elem_of_filter.
  assert (∀ l, foldl (λ a c, ids ← a; findChildren n cs (id c) (ids ++ [id c]))
                     None l = None) as Hnone.
  { induction l as [|x l IHl]; [done|]. exact IHl. }
  revert Hin. generalize (Some acc). generalize (filter (isChildOf parent) cs).
  induction l as [|x l IHl]; intros a Hin; [by apply elem_of_nil in Hin|].
  apply elem_of_cons in Hin as [<-|Hin].
  - simpl. destruct a as [ids|]; simpl; [|apply Hnone].
    rewrite (IH (id ch)) by done. apply Hnone.
  - simpl. by apply IHl.
Qed.

(** X12. [delete-component] never returns when a parent cycle lies at or
    below the id, even when that cycle is not part of the rendered tree. *)
Theorem deleteComponent_never_returns_on_cycle fuel i y s :
  rtc (childId (components s)) i y → descendantId (components s) y y →
  deleteComponent fuel i s = None.
Proof.
  intros Hy Hcyc. unfold deleteComponent.
  by rewrite (findChildren_diverges _ y fuel i [i] Hy Hcyc).
Qed.

(** On [detachedCycleStore] the page renders, and deleting 5 never
    returns. *)
Lemma deleteComponent_never_returns_on_cycle_detached :
  (∃ d, render 1 detachedCycleStore "en" = Some d ∧ d ≫= addressable = ["0"]) ∧
  ∀ fuel, deleteComponent fuel 5 (mkState detachedCycleStore "en" [] []) = None.
Proof.
  split.
  - eexists. split; vm_compute; reflexivity.
  - intros fuel.
    assert (childId detachedCycleStore 5 6) as H56.
    { exists (mkRec 6 (Some 5) None). split; [compute_done|done]. }
    assert (childId detachedCycleStore 6 5) as H65.
    { exists (mkRec 5 (Some 6) None). split; [compute_done|done]. }
    apply (deleteComponent_never_returns_on_cycle fuel 5 5
             (mkState detachedCycleStore "en" [] [])).
    + apply rtc_refl.
    + eapply tc_l; [exact H56|]. by apply tc_once.
Defined.

(** * Messages to the host and the missing root *)

Lemma handleMessages_outbox fuel es : ∀ s s',
  handleMessages fuel es s = Some s' →
  outbox s' = outbox s ∧ currentLang s' = currentLang s.
Proof.
  unfold handleMessages.
  assert (∀ l, foldl (λ acc e, s' ← acc; handleMessage fuel e s') None l = None)
    as Hnone by (induction l as [|x l IHl]; [done|exact IHl]).
  induction es as [|e es IH]; intros s s' Hs;
    [simpl in Hs; injection Hs as <-; by split|].
  simpl in Hs. destruct (handleMessage fuel e s) as [s1|] eqn:H1;
    [|by rewrite Hnone in Hs].
  destruct (IH _ _ Hs) as [-> ->].
  split; [by eapply handleMessage_outbox|].
  unfold handleMessage in H1. case_decide as Hsrc; [|by simplify_eq].
  destruct (decide (pureDom (command e))) as [Hp|Hnp].
  { rewrite dispatch_pureDom in H1 by done. by simplify_eq. }
  destruct (decide (structural (command e))) as [Hst|Hns].
  { destruct (dispatch_structural_effect _ _ _ _ Hst H1) as [Hm Hf].
    destruct (decide (targetMissing (command e) s)) as [Hmiss|Hnm].
    - by rewrite (Hm Hmiss).
    - by destruct (Hf Hnm) as (_ & -> & _). }
  destruct (command e); simpl in *; try done. by simplify_eq.
Qed.

(** X13. The ready message is sent exactly once: whatever messages the page
    handles after [init], the messages it has posted are the one ready
    message of [init] in embedded mode (carrying the number of records and
    the language of the document, en by default), and none otherwise. *)
Theorem ready_is_posted_exactly_once fuel isInIframe data es s0 s :
  init fuel isInIframe data = Some s0 →
  handleMessages fuel es s0 = Some s →
  outbox s =
    (if isInIframe
     then [EzuiReady (length (dataComponents data))
                     (str_or (language data) "en")]
     else []) ∧
  currentLang s = str_or (language data) "en".
Proof.
  intros Hinit Hs. destruct (handleMessages_outbox _ _ _ _ Hs) as [-> ->].
  unfold init in Hinit. destruct (buildDOM _ _) as [s1|] eqn:Hb; [|done].
  apply buildDOM_Some in Hb as (d & _ & ->). simpl in Hinit.
  injection Hinit as <-. by destruct isInIframe.
Qed.

Lemma ready_is_posted_exactly_once_on_chain :
  ∃ s0 s,
    init 6 true (mkDataJson None chainStore) = Some s0 ∧
    handleMessages 6 [fromHost (Highlight 4); fromHost (Reorder 4 (-1));
                      mkMessage None (DeleteComponent 0);
                      fromHost (DeleteComponent 1)] s0 = Some s ∧
    outbox s = [EzuiReady 5 "en"] ∧ id <$> components s = [0; 4].
Proof.
  destruct (init 6 true (mkDataJson None chainStore)) as [s0|] eqn:H0;
    [|vm_compute in H0; discriminate H0].
  destruct (handleMessages 6 [fromHost (Highlight 4); fromHost (Reorder 4 (-1));
                      mkMessage None (DeleteComponent 0);
                      fromHost (DeleteComponent 1)] s0) as [s|] eqn:H1;
    [|vm_compute in H0; injection H0 as <-; vm_compute in H1; discriminate H1].
  exists s0, s. split; [reflexivity|]. split; [exact H1|]. split.
  - exact (proj1 (ready_is_posted_exactly_once 6 true _ _ s0 s H0 H1)).
  - vm_compute in H0. injection H0 as <-. vm_compute in H1.
    injection H1 as <-. reflexivity.
Defined.

(** X14. When no record has a null [parentId], [buildDOM] returns at once,
    whatever the stack depth and whatever cycles the store has, and leaves
    an empty page: what was rendered before is discarded. *)
Theorem buildDOM_without_root_clears_page fuel s :
  Forall (λ c, parentId c ≠ None) (components s) →
  buildDOM fuel s = Some (setDom [] s) ∧
  handleMessage fuel (fromHost (Rebuild None)) s = Some (setDom [] s).
Proof.
  intros Hno%rootComponent_None.
  assert (buildDOM fuel s = Some (setDom [] s)) as Hb.
  { rewrite buildDOM_unfold. by rewrite Hno. }
  split; [done|]. by rewrite handleMessage_fromHost.
Qed.

Lemma buildDOM_without_root_clears_page_on_cycle :
  Forall (λ c, parentId c ≠ None) [mkRec 5 (Some 6) None; mkRec 6 (Some 5) None] ∧
  buildDOM 0 (setComponents [mkRec 5 (Some 6) None; mkRec 6 (Some 5) None] chainPage)
  = Some (mkState [mkRec 5 (Some 6) None; mkRec 6 (Some 5) None] "en" []
                  [EzuiReady 5 "en"]).
Proof.
  assert (Forall (λ c, parentId c ≠ None)
            [mkRec 5 (Some 6) None; mkRec 6 (Some 5) None]) as Hno
    by (repeat constructor; discriminate).
  split; [exact Hno|].
  exact (proj1 (buildDOM_without_root_clears_page 0
           (setComponents [mkRec 5 (Some 6) None; mkRec 6 (Some 5) None] chainPage)
           Hno)).
Defined.

(** * Reordering *)

Lemma addressable_of_rendered cs lang fuel r el :
  uniqueIds cs → Forall keepsIdentity cs → r ∈ cs → parentId r = None →
  buildElement fuel cs lang r = Some el →
  ∃ ids, addressable el = pretty <$> ids ∧ NoDup ids ∧
         ∀ x, x ∈ ids ↔ rtc (childId cs) (id r) x.
Proof.
  intros Hu Hkeep Hr Hnone Hel. rewrite Forall_forall in Hkeep.
  destruct (buildElement_rendered _ _ _ _ _ Hel) as (tr & Htr & Haddr & _).
  destruct (renderedRecords_subtreeOf cs fuel Hu r tr Hr
              (root_cycleFree cs Hu r Hr Hnone) Htr) as (Hin & Hnd & Hsub).
  exists (id <$> tr). split_and!; [|done..].
  rewrite Haddr, <-list_fmap_compose. apply list_fmap_ext. intros j c Hc.
  apply stampedId_keepsIdentity, Hkeep, Hin. by eapply list_elem_of_lookup_2.
Qed.

(** Two stores with the same ids and parent links, position by position,
    render the same set of elements. *)
Lemma render_sameLinks cs cs' lang fuel d d' :
  Forall2 sameLinks cs cs' → uniqueIds cs →
  Forall keepsIdentity cs → Forall keepsIdentity cs' →
  render fuel cs lang = Some d → render fuel cs' lang = Some d' →
  d' ≫= addressable ≡ₚ d ≫= addressable.
Proof.
  intros Hl Hu Hk Hk' Hd Hd'.
  assert (uniqueIds cs') as Hu' by (unfold uniqueIds; by rewrite (sameLinks_ids _ _ Hl)).
  unfold render in Hd, Hd'.
  pose proof (sameLinks_rootComponent _ _ Hl) as Hroot.
  destruct (rootComponent cs) as [r|] eqn:Hr0,
           (rootComponent cs') as [r'|] eqn:Hr0';
    inversion Hroot as [? ? [Hid _]|]; subst; [|by simplify_eq].
  destruct (buildElement fuel cs lang r) as [el|] eqn:Hel; [|done].
  destruct (buildElement fuel cs' lang r') as [el'|] eqn:Hel'; [|done].
  simpl in Hd, Hd'. simplify_eq.
  change ([el'] ≫= addressable) with (addressable el' ++ []).
  change ([el] ≫= addressable) with (addressable el ++ []).
  rewrite !app_nil_r.
  apply rootComponent_elem_of in Hr0 as [Hr Hnone].
  apply rootComponent_elem_of in Hr0' as [Hr' Hnone'].
  destruct (addressable_of_rendered _ _ _ _ _ Hu Hk Hr Hnone Hel)
    as (ids & -> & Hnd & Hmem).
  destruct (addressable_of_rendered _ _ _ _ _ Hu' Hk' Hr' Hnone' Hel')
    as (ids' & -> & Hnd' & Hmem').
  apply fmap_Permutation, NoDup_Permutation; [done..|].
  intros x. rewrite Hmem, Hmem', Hid. split.
  - apply rtc_subrel. intros a b. exact (proj2 (sameLinks_childId _ _ a b Hl)).
  - apply rtc_subrel. intros a b. exact (proj1 (sameLinks_childId _ _ a b Hl)).
Qed.

(** X15. [reorder] only permutes the page: on a page that shows its store
    (ids unique, identity attributes not overwritten), the elements after a
    [reorder] carry the same ids as before, each once; none is added and none
    is lost. *)
Theorem reorder_permutes_elements fuel i n s s' :
  uniqueIds (components s) → Forall keepsIdentity (components s) →
  render fuel (components s) (currentLang s) = Some (dom s) →
  reorderComponent fuel i n s = Some s' →
  dom s' ≫= addressable ≡ₚ dom s ≫= addressable.
Proof.
  intros Hu Hkeep Hsync. unfold reorderComponent.
  destruct (list_find _ _) as [[k comp]|] eqn:Hf; [|by intros [= <-]].
  intros (d' & Hd' & ->)%buildDOM_Some. simpl in *.
  apply list_find_Some in Hf as (Hk & _ & _).
  eapply render_sameLinks; [by apply sameLinks_reorder|done..| |done|done].
  apply Forall_insert; [done|].
  rewrite Forall_forall in Hkeep. apply (Hkeep comp).
  by eapply list_elem_of_lookup_2.
Qed.

Lemma reorder_permutes_elements_on_chain :
  ∃ s', reorderComponent 6 4 (-1) chainPage = Some s' ∧
        dom chainPage ≫= addressable = ["0"; "1"; "2"; "3"; "4"] ∧
        dom s' ≫= addressable = ["0"; "4"; "1"; "2"; "3"] ∧
        dom s' ≫= addressable ≡ₚ dom chainPage ≫= addressable.
Proof.
  destruct (reorderComponent 6 4 (-1) chainPage) as [s'|] eqn:H1;
    [|vm_compute in H1; discriminate H1].
  exists s'. split; [reflexivity|]. split; [reflexivity|]. split.
  - vm_compute in H1. injection H1 as <-. reflexivity.
  - apply (reorder_permutes_elements 6 4 (-1) chainPage s'); [| | |exact H1].
    + unfold uniqueIds. compute_done.
    + repeat constructor; intros kvs; discriminate.
    + vm_compute. reflexivity.
Defined.


(** * Reading an id back from the page *)












(** * Clicks *)

Lemma clearSelected_idemp el : clearSelected (clearSelected el) = clearSelected el.
Proof.
  induction el as [t a st sel tx ks IH] using Element_ind'.
  simpl. f_equal. induction IH as [|k ks Hk _ IHks]; [done|].
  rewrite !fmap_cons. by rewrite Hk, IHks.
Qed.

Lemma bind_selectedIds_clearSelected (d : list Element) :
  (clearSelected <$> d) ≫= selectedIds = [].
Proof.
  induction d as [|k d IH]; [done|].
  rewrite fmap_cons, bind_cons, selectedIds_clearSelected. exact IH.
Qed.

Lemma bind_alter {B} (g : Element → list B) (f : Element → Element) j
    (d : list Element) el :
  d !! j = Some el →
  alter f j d ≫= g = (take j d ≫= g) ++ g (f el) ++ (drop (S j) d ≫= g) ∧
  d ≫= g = (take j d ≫= g) ++ g el ++ (drop (S j) d ≫= g).
Proof.
  revert j. induction d as [|x d IH]; intros [|j] Hj; try done.
  - injection Hj as ->. by split.
  - destruct (IH j Hj) as [H1 H2].
    change (alter f (S j) (x :: d)) with (x :: alter f j d).
    change (take (S j) (x :: d)) with (x :: take j d).
    change (drop (S (S j)) (x :: d)) with (drop (S j) d).
    rewrite !bind_cons, <-!(assoc_L (++)). by rewrite <-H1, <-H2.
Qed.

Lemma fmap_alter_same {A B} (h : A → B) (g : A → A) j (l : list A) :
  (∀ x, l !! j = Some x → h (g x) = h x) → h <$> alter g j l = h <$> l.
Proof.
  revert j. induction l as [|x l IH]; intros [|j] Hx; try done.
  - change (alter g 0%nat (x :: l)) with (g x :: l).
    rewrite !fmap_cons. by rewrite Hx.
  - change (alter g (S j) (x :: l)) with (x :: alter g j l).
    rewrite !fmap_cons. by rewrite IH.
Qed.

Lemma elementsAlong_length path : ∀ d,
  (length (elementsAlong path d) ≤ length path)%nat.
Proof.
  induction path as [|j rest IH]; intros d; simpl; [done|].
  destruct (d !! j); simpl; [|lia]. specialize (IH (kids e)). lia.
Qed.

Lemma elementsAlong_take path : ∀ k d,
  elementsAlong (take k path) d = take k (elementsAlong path d).
Proof.
  induction path as [|j rest IH]; intros [|k] d; simpl; try done.
  destruct (d !! j); simpl; [|done]. by rewrite IH.
Qed.

Lemma elementsAlong_clearSelected path : ∀ d,
  elementsAlong path (clearSelected <$> d)
  = clearSelected <$> elementsAlong path d.
Proof.
  induction path as [|j rest IH]; intros d; simpl; [done|].
  rewrite list_lookup_fmap. destruct (d !! j) as [el|]; simpl; [|done].
  f_equal. destruct el. exact (IH _).
Qed.


Lemma nearestIdentified_None chain :
  nearestIdentified chain = None → Forall (λ e, identified e = false) chain.
Proof.
  induction chain as [|el rest IH]; simpl; [by constructor|].
  destruct (nearestIdentified rest); [done|].
  destruct (identified el) eqn:Hel; [done|]. intros _. by constructor; auto.
Qed.

(** The walk stops on the deepest identified element of the chain. *)
Lemma nearestIdentified_Some chain k :
  nearestIdentified chain = Some k →
  ∃ el, k = S (pred k) ∧ chain !! pred k = Some el ∧ identified el = true ∧
        ∀ j e, (pred k < j)%nat → chain !! j = Some e → identified e = false.
Proof.
  revert k. induction chain as [|el rest IH]; intros k; simpl; [done|].
  destruct (nearestIdentified rest) as [k0|] eqn:Hrest.
  - intros [= <-]. destruct (IH k0 eq_refl) as (e0 & Hk0 & He0 & Hid & Hlater).
    exists e0. split_and!; [done| |done|].
    + simpl. by rewrite Hk0.
    + simpl. intros [|j] e Hj He; [lia|]. simpl in He.
      apply (Hlater j e); [lia|done].
  - destruct (identified el) eqn:Hel; [|done]. intros [= <-].
    exists el. split_and!; [done..|].
    intros [|j] e Hj He; [simpl in Hj; lia|]. simpl in He.
    apply nearestIdentified_None in Hrest. rewrite Forall_forall in Hrest.
    apply Hrest. by eapply list_elem_of_lookup_2.
Qed.


Lemma updateAt_cons2 j j' rest f d :
  updateAt (j :: j' :: rest) f d
  = alter (λ el, mkElement (tag el) (attrs el) (style el) (selected el)
                           (text el) (updateAt (j' :: rest) f (kids el))) j d.
Proof. done. Qed.

Lemma clearSelected_unfold t a st sel tx ks :
  clearSelected (mkElement t a st sel tx ks)
  = mkElement t a st false tx (clearSelected <$> ks).
Proof. done. Qed.

Lemma selectedIds_unfold t a st sel tx ks :
  selectedIds (mkElement t a st sel tx ks)
  = (if sel then [a !! DATA_ID] else []) ++ (ks ≫= selectedIds).
Proof. done. Qed.

Lemma updateAt_clearSelected path : ∀ d,
  clearSelected <$> updateAt path (setSelected true) d = clearSelected <$> d.
Proof.
  induction path as [|j rest IH]; intros d; [done|].
  destruct rest as [|j' rest'].
  - apply fmap_alter_same. by intros [].
  - rewrite updateAt_cons2. apply fmap_alter_same. intros x _.
    rewrite clearSelected_unfold, IH. by destruct x.
Qed.

(** Selecting the element at a position of a page on which nothing is
    selected leaves this element selected, and no other. *)
Lemma updateAt_select path : ∀ d el,
  d ≫= selectedIds = [] →
  elementsAlong path d !! pred (length path) = Some el → path ≠ [] →
  updateAt path (setSelected true) d ≫= selectedIds = [dataId el].
Proof.
  induction path as [|j rest IH]; intros d el Hd Hel Hne; [done|].
  simpl in Hel. destruct (d !! j) as [e0|] eqn:Hj; [|done].
  destruct (bind_alter selectedIds (setSelected true) j d e0 Hj) as [_ Hsplit].
  rewrite Hd in Hsplit. symmetry in Hsplit.
  apply app_eq_nil in Hsplit as [Htake [He0 Hdrop]%app_eq_nil].
  destruct e0 as [t a st sel tx ks]. simpl in He0.
  apply app_eq_nil in He0 as [Hsel Hks].
  destruct rest as [|j' rest'].
  - simpl in Hel. injection Hel as <-.
    change (updateAt [j] (setSelected true) d)
      with (alter (setSelected true) j d).
    rewrite (proj1 (bind_alter selectedIds (setSelected true) j d _ Hj)).
    rewrite Htake, Hdrop. unfold setSelected.
    rewrite selectedIds_unfold. simpl kids. rewrite Hks. by rewrite app_nil_r.
  - rewrite updateAt_cons2.
    rewrite (proj1 (bind_alter selectedIds _ j d _ Hj)).
    rewrite Htake, Hdrop, selectedIds_unfold. simpl kids. simpl selected.
    destruct sel; [done|].
    rewrite (IH ks el); [by rewrite app_nil_r|done| |done].
    exact Hel.
Qed.

(** What a click that finds an identified element does to the page. *)
Lemma handleClick_selection path d k el :
  elementsAlong path d !! pred k = Some el → k = S (pred k) →
  let d' := updateAt (take k path) (setSelected true) (clearSelected <$> d) in
  d' ≫= selectedIds = [dataId el] ∧ clearSelected <$> d' = clearSelected <$> d.
Proof.
  intros Hel Hk. split.
  - pose proof (elementsAlong_length path d) as Hlen.
    apply lookup_lt_Some in Hel as Hlt.
    assert (length (take k path) = k) as Htk by (rewrite length_take; lia).
    rewrite (updateAt_select (take k path) _ (clearSelected el)).
    + by destruct el.
    + apply bind_selectedIds_clearSelected.
    + rewrite Htk, elementsAlong_take, elementsAlong_clearSelected.
      rewrite lookup_take_lt by lia. by rewrite list_lookup_fmap, Hel.
    + intros Hnil. rewrite Hnil in Htk. simpl in Htk. lia.
  - rewrite updateAt_clearSelected, <-list_fmap_compose.
    apply list_fmap_ext. intros ? e _. apply clearSelected_idemp.
Qed.

(** X16. A click selects the nearest element, from the target upwards, that
    carries a non-empty identity attribute, and only this one: whatever was
    selected before is cleared, nothing but the selection changes on the
    page, the store stays, and the message carries the identity attribute of
    this element read as a number, and its text. A click with no such element
    at or above the target changes nothing and posts nothing. *)
Theorem handleClick_selects_nearest_identified path s s' m :
  handleClick path s = (s', m) →
  match m with
  | None =>
    s' = s ∧
    (length (elementsAlong path (dom s)) = length path →
     Forall (λ e, identified e = false) (elementsAlong path (dom s)))
  | Some msg =>
    ∃ k el,
      elementsAlong path (dom s) !! k = Some el ∧ identified el = true ∧
      (∀ j e, (k < j)%nat → elementsAlong path (dom s) !! j = Some e →
              identified e = false) ∧
      selectedId msg = parseInt (default "" (dataId el)) ∧
      selectedText msg = textContent el ∧
      dom s' ≫= selectedIds = [dataId el] ∧
      clearSelected <$> dom s' = clearSelected <$> dom s ∧
      components s' = components s
  end.
Proof.
  unfold handleClick. case_decide as Hlen; [|by intros [= <- <-]].
  destruct (nearestIdentified _) as [k|] eqn:Hn.
  - destruct (nearestIdentified_Some _ _ Hn) as (el & Hk & Hel & Hid & Hlater).
    rewrite Hel. intros [= <- <-]. exists (pred k), el.
    destruct (handleClick_selection path (dom s) k el Hel Hk) as [Hs Hc].
    by split_and!.
  - intros [= <- <-]. split; [done|]. intros _.
    by apply nearestIdentified_None.
Qed.

Lemma handleClick_selects_nearest_identified_on_chain :
  ∃ s' msg,
    handleClick [0; 0; 0]%nat (highlightElement 4 chainPage) = (s', Some msg) ∧
    selectedId msg = Some 2 ∧
    dom (highlightElement 4 chainPage) ≫= selectedIds = [Some "4"] ∧
    dom s' ≫= selectedIds = [Some "2"] ∧
    clearSelected <$> dom s'
    = clearSelected <$> dom (highlightElement 4 chainPage).
Proof.
  destruct (handleClick [0; 0; 0]%nat (highlightElement 4 chainPage))
    as [s' m] eqn:H1.
  pose proof (handleClick_selects_nearest_identified _ _ _ _ H1) as H2.
  destruct m as [msg|]; [|vm_compute in H1; discriminate H1].
  destruct H2 as (k & el & _ & _ & _ & _ & _ & _ & Hc & _).
  exists s', msg. split; [reflexivity|]. split; [|split; [reflexivity|split]].
  - vm_compute in H1. injection H1 as <- <-. reflexivity.
  - vm_compute in H1. injection H1 as <- <-. reflexivity.
  - exact Hc.
Defined.








(** * The static variant *)

Section update_keeps_addressable.
Context (p : Element → bool) (f : Element → Element).
Context (Hf : ∀ e, addressable (f e) = addressable e).

Lemma updateFirst_addressable el el' :
  updateFirst p f el = Some el' → addressable el' = addressable el.
Proof.
  revert el'. induction el as [t a st sel tx ks IH] using Element_ind'.
  intros el'. simpl. destruct (p _); [intros [= <-]; by apply Hf|].
  destruct (updateFirstOf _ ks) as [ks'|] eqn:Hks; [|done].
  simpl. intros [= <-]. simpl. f_equal.
  clear -IH Hks. revert ks' Hks.
  induction IH as [|k ks Hk _ IHks]; intros ks' Hks; [done|].
  simpl in Hks. destruct (updateFirst p f k) as [k'|] eqn:Hk'.
  - simplify_eq. change (addressable k' ++ ks ≫= addressable
                         = addressable k ++ ks ≫= addressable).
    by rewrite (Hk k').
  - destruct (updateFirstOf _ ks) as [ks''|]; [|done].
    simpl in Hks. simplify_eq.
    change (addressable k ++ ks'' ≫= addressable
            = addressable k ++ ks ≫= addressable).
    by rewrite (IHks ks'').
Qed.

Lemma updateFirstOf_addressable d d' :
  updateFirstOf (updateFirst p f) d = Some d' →
  d' ≫= addressable = d ≫= addressable.
Proof.
  revert d'. induction d as [|k d IH]; intros d' Hd; [done|].
  simpl in Hd. destruct (updateFirst p f k) as [k'|] eqn:Hk'.
  - simplify_eq. rewrite !bind_cons. f_equal. by eapply updateFirst_addressable.
  - destruct (updateFirstOf _ d) as [d''|]; [|done].
    simpl in Hd. simplify_eq. rewrite !bind_cons. f_equal. by apply IH.
Qed.

End update_keeps_addressable.

Lemma addressable_ext el el' :
  attrs el !! DATA_ID = attrs el' !! DATA_ID → kids el = kids el' →
  addressable el = addressable el'.
Proof. destruct el, el'. simpl. unfold dataId. simpl. by intros -> ->. Qed.

Lemma foldl_setStyle kvs : ∀ el,
  foldl (λ e kv, setStyle kv.1 kv.2 e) el kvs
  = mkElement (tag el) (attrs el)
      (foldl (λ m kv, <[kv.1 := kv.2]> m) (style el) kvs)
      (selected el) (text el) (kids el).
Proof.
  induction kvs as [|kv kvs IH]; intros el; simpl; [by destruct el|].
  by rewrite IH.
Qed.

Lemma foldl_setAttribute kvs : ∀ el,
  foldl (λ e kv, setAttribute kv.1 kv.2 e) el kvs
  = mkElement (tag el)
      (foldl (λ m kv, <[lower kv.1 := kv.2]> m) (attrs el) kvs)
      (style el) (selected el) (text el) (kids el).
Proof.
  induction kvs as [|kv kvs IH]; intros el; simpl; [by destruct el|].
  by rewrite IH.
Qed.

Lemma foldl_insert_lookup_notin (g : string → string)
    (kvs : list (string * string)) : ∀ (m : gmap string string) k,
  k ∉ (g ∘ fst) <$> kvs →
  foldl (λ m kv, <[g kv.1 := kv.2]> m) m kvs !! k = m !! k.
Proof.
  induction kvs as [|kv kvs IH]; intros m k Hk; simpl; [done|].
  rewrite fmap_cons, not_elem_of_cons in Hk. destruct Hk as [Hne Hk].
  rewrite IH by done. by rewrite lookup_insert_ne.
Qed.

Lemma applyComponent_addressable lang comp el :
  keepsIdentity comp →
  addressable (Static.applyComponent lang comp el) = addressable el.
Proof.
  intros Hk. unfold Static.applyComponent.
  set (el1 := match styles comp with Some _ => _ | None => _ end).
  assert (addressable el1 = addressable el) as H1.
  { unfold el1. destruct (styles comp); [|done].
    rewrite foldl_setStyle. by apply addressable_ext. }
  set (el2 := match localizedText lang comp with Some _ => _ | None => _ end).
  assert (addressable el2 = addressable el) as H2.
  { rewrite <-H1. unfold el2. destruct (localizedText lang comp); [|done].
    unfold hasAddressableDescendant. case_bool_decide as Hd; [done|].
    clear H1 el2. clearbody el1. destruct el1 as [t a st sel tx ks].
    simpl in Hd. simpl. f_equal. symmetry. exact Hd. }
  rewrite <-H2. destruct (attributes comp) as [kvs|] eqn:Ha; [|done].
  rewrite foldl_setAttribute. apply addressable_ext; [|done]. simpl.
  apply (foldl_insert_lookup_notin lower). by apply Hk.
Qed.

Lemma applyTo_addressable lang comp d :
  keepsIdentity comp →
  Static.applyTo lang d comp ≫= addressable = d ≫= addressable.
Proof.
  intros Hk. unfold Static.applyTo.
  destruct (updateFirstOf _ d) as [d'|] eqn:Hd; [|done]. simpl.
  eapply updateFirstOf_addressable; [|exact Hd].
  intros e. by apply applyComponent_addressable.
Qed.

(** X18. The static loader neither adds nor removes an addressable element:
    when no record overwrites the identity attribute, the elements that carry
    an identity attribute, and these attributes, are after
    [loadAndApplyFromJSON] what they were in the static page, so that the
    ready message counts the elements of the static page. *)
Theorem static_load_keeps_addressable isInIframe language components d :
  Forall keepsIdentity (default [] components) →
  (Static.loadAndApplyFromJSON language components d).2 ≫= addressable
    = d ≫= addressable ∧
  (Static.init isInIframe language components d).2
    = if isInIframe then Some (length (d ≫= addressable)) else None.
Proof.
  intros Hk.
  assert ((Static.loadAndApplyFromJSON language components d).2 ≫= addressable
          = d ≫= addressable) as Hload.
  { unfold Static.loadAndApplyFromJSON. simpl.
    destruct components as [cs|]; [|done]. simpl in Hk.
    revert d. induction Hk as [|c cs Hc _ IH]; intros d; [done|].
    simpl. rewrite IH. by apply applyTo_addressable. }
  split; [done|]. unfold Static.init, Static.enableEditMode.
  destruct isInIframe; [|done]. cbn [snd]. by rewrite Hload.
Qed.


Lemma static_load_keeps_addressable_on_page :
  (Static.loadAndApplyFromJSON None (Some staticStore) staticPage).2
    ≫= liveText = [None; Some "Title"; Some "text"] ∧
  staticPage ≫= addressable = ["0"; "1"; "2"] ∧
  (Static.loadAndApplyFromJSON None (Some staticStore) staticPage).2
    ≫= addressable = staticPage ≫= addressable ∧
  (Static.init true None (Some staticStore) staticPage).2 = Some 3%nat.
Proof.
  split; [vm_compute; reflexivity|]. split; [vm_compute; reflexivity|].
  apply (static_load_keeps_addressable true None (Some staticStore) staticPage).
  repeat constructor; intros kvs [= <-]; vm_compute;
    intros Hin; repeat (apply elem_of_cons in Hin as [Hin | Hin];
                          [discriminate Hin|]); by apply elem_of_nil in Hin.
Defined.

(** ** The static loader on a page built by the dynamic variant *)

Lemma foldl_insert_agree (g : string → string)
    (kvs : list (string * string)) : ∀ (m m' : gmap string string),
  (∀ k, k ∉ (g ∘ fst) <$> kvs → m !! k = m' !! k) →
  foldl (λ m kv, <[g kv.1 := kv.2]> m) m kvs
  = foldl (λ m kv, <[g kv.1 := kv.2]> m) m' kvs.
Proof.
  induction kvs as [|kv kvs IH]; intros m m' Hm; simpl.
  - apply map_eq. intros k. apply Hm. by intros ?%elem_of_nil.
  - apply IH. intros k Hk.
    destruct (decide (g kv.1 = k)) as [<- | Hne].
    + by rewrite !lookup_insert_eq.
    + rewrite !lookup_insert_ne by done. apply Hm.
      rewrite fmap_cons, not_elem_of_cons. by split.
Qed.

Lemma foldl_insert_idemp (g : string → string) (kvs : list (string * string))
    (m : gmap string string) :
  foldl (λ m kv, <[g kv.1 := kv.2]> m)
        (foldl (λ m kv, <[g kv.1 := kv.2]> m) m kvs) kvs
  = foldl (λ m kv, <[g kv.1 := kv.2]> m) m kvs.
Proof.
  apply foldl_insert_agree. intros k Hk. by apply foldl_insert_lookup_notin.
Qed.

Lemma stampElement_eq c :
  stampElement c
  = mkElement (str_or (elementType c) "div")
      (match attributes c with
       | Some kvs =>
         foldl (λ m kv, <[lower kv.1 := kv.2]> m)
               (<[DATA_EZUI_CMS := cmsString (ezuiCms c)]>
                  (<[DATA_ID := pretty (id c)]> ∅)) kvs
       | None => <[DATA_EZUI_CMS := cmsString (ezuiCms c)]>
                   (<[DATA_ID := pretty (id c)]> ∅)
       end)
      (match styles c with
       | Some kvs => foldl (λ m kv, <[kv.1 := kv.2]> m) ∅ kvs
       | None => ∅
       end)
      false None [].
Proof.
  unfold stampElement.
  destruct (attributes c), (styles c);
    rewrite ?foldl_setAttribute, ?foldl_setStyle; simpl;
    rewrite ?foldl_setStyle; done.
Qed.

(** The loader's update of an element with the record it was built from
    changes nothing. *)
Lemma applyComponent_built n cs lang c e :
  buildElement n cs lang c = Some e → Static.applyComponent lang c e = e.
Proof.
  intros Hb.
  destruct (buildElement_Some _ _ _ _ _ Hb) as (n' & ks & -> & Hks & Hkids & _).
  rewrite buildElement_S in Hb.
  assert (∀ (a st : gmap string string) t tx,
    hasAddressableDescendant (mkElement t a st false tx ([] ++ ks))
    = bool_decide (childrenOf cs c ≠ [])) as Haddr.
  { intros. unfold hasAddressableDescendant. simpl.
    destruct Hks as [|ch k chs ks' Hk Hks']; [done|].
    trans true; [|symmetry; by apply bool_decide_eq_true_2].
    apply bool_decide_eq_true_2. rewrite bind_cons.
    destruct (buildElement_Some _ _ _ _ _ Hk) as (_ & _ & _ & _ & _ & Ha & _).
    destruct k as [t' a' st' sel' tx' ks'']. simpl in Ha. simpl.
    unfold dataId. simpl. rewrite Ha.
    pose proof (dataId_stampElement ch) as Hd. unfold dataId in Hd.
    by rewrite Hd. }
  rewrite stampElement_eq in Hb. unfold Static.applyComponent.
  destruct (childrenOf cs c) as [|ch chs] eqn:Hch.
  - destruct (localizedText lang c) as [s|], (styles c) as [skvs|],
      (attributes c) as [akvs|]; simplify_eq;
      rewrite ?foldl_setStyle; simpl; unfold hasAddressableDescendant; simpl;
      rewrite ?foldl_setAttribute; simpl;
      rewrite ?(foldl_insert_idemp (λ x, x)), ?(foldl_insert_idemp lower);
      done.
  - destruct (mapM _ _) as [ks0|] eqn:Hm; [|done]. simpl in Hb.
    injection Hb as <-. simpl in Hkids. subst ks0.
    destruct (localizedText lang c) as [s|], (styles c) as [skvs|],
      (attributes c) as [akvs|];
      rewrite ?foldl_setStyle; unfold appendChildren; simpl;
      rewrite ?Haddr, ?bool_decide_eq_true_2 by done;
      rewrite ?foldl_setAttribute; simpl;
      rewrite ?(foldl_insert_idemp (λ x, x)), ?(foldl_insert_idemp lower);
      done.
Qed.

Lemma subElements_unfold el : subElements el = el :: (kids el ≫= subElements).
Proof. by destruct el. Qed.

(** Every element of a built tree was built from a record of the store. *)
Lemma built_subElements cs lang n : ∀ c el,
  buildElement n cs lang c = Some el → c ∈ cs →
  Forall (λ e, ∃ c' n', c' ∈ cs ∧ buildElement n' cs lang c' = Some e)
         (subElements el).
Proof.
  induction n as [|n IH]; intros c el Hb Hc; [done|].
  destruct (buildElement_Some _ _ _ _ _ Hb) as (n' & ks & [= <-] & Hks & Hk & _).
  rewrite subElements_unfold, Hk. constructor; [by exists c, (S n)|].
  apply Forall_bind.
  assert (∀ ch, ch ∈ childrenOf cs c → ch ∈ cs) as Hin
    by (by intros ch [? _]%elem_of_childrenOf).
  clear Hb Hk. induction Hks as [|ch k chs ks Hbk _ IHks]; constructor.
  - apply (IH ch); [done|]. apply Hin. by left.
  - apply IHks. intros ch' ?. apply Hin. by right.
Qed.

Section update_fixed.
Context (p : Element → bool) (f : Element → Element).

Lemma updateFirst_fixed el :
  (∀ e, e ∈ subElements el → p e = true → f e = e) →
  ∀ el', updateFirst p f el = Some el' → el' = el.
Proof.
  induction el as [t a st sel tx ks IH] using Element_ind'.
  intros Hf el'. simpl. destruct (p _) eqn:Hp.
  - intros [= <-]. apply Hf; [|done]. rewrite subElements_unfold. by left.
  - destruct (updateFirstOf _ ks) as [ks'|] eqn:Hks; [|done].
    simpl. intros [= <-]. f_equal.
    assert (∀ k e, k ∈ ks → e ∈ subElements k → p e = true → f e = e) as Hf'.
    { intros k e Hk He. apply Hf. rewrite subElements_unfold. right.
      apply list_elem_of_bind. by exists k. }
    clear -IH Hks Hf'. revert ks' Hks.
    induction IH as [|k ks Hk _ IHks]; intros ks' Hks; [done|].
    simpl in Hks. destruct (updateFirst p f k) as [k'|] eqn:Hk'.
    + simplify_eq. f_equal. apply Hk; [|done].
      intros e. apply Hf'. by left.
    + destruct (updateFirstOf _ ks) as [ks''|]; [|done].
      simpl in Hks. simplify_eq. f_equal. apply IHks; [|done].
      intros k0 e ?. apply Hf'. by right.
Qed.

Lemma updateFirstOf_fixed d :
  (∀ e, e ∈ d ≫= subElements → p e = true → f e = e) →
  ∀ d', updateFirstOf (updateFirst p f) d = Some d' → d' = d.
Proof.
  induction d as [|k d IH]; intros Hf d' Hd; [done|].
  simpl in Hd. destruct (updateFirst p f k) as [k'|] eqn:Hk'.
  - simplify_eq. f_equal. eapply updateFirst_fixed; [|done].
    intros e He. apply Hf. rewrite bind_cons. apply elem_of_app. by left.
  - destruct (updateFirstOf _ d) as [d''|]; [|done].
    simpl in Hd. simplify_eq. f_equal. apply IH; [|done].
    intros e He. apply Hf. rewrite bind_cons. apply elem_of_app. by right.
Qed.

End update_fixed.

(** X19. The two variants show a store alike: the page that the dynamic
    variant builds from a [data.json] (ids unique, identity attributes not
    overwritten) is left as it is by the loader of the static variant run on
    the same [data.json]; styles, text and attributes are already what the
    loader would set, and records that are not rendered are skipped. *)
Theorem static_load_fixes_built_page fuel isInIframe data s :
  uniqueIds (dataComponents data) →
  Forall keepsIdentity (dataComponents data) →
  init fuel isInIframe data = Some s →
  Static.loadAndApplyFromJSON (language data) (Some (dataComponents data))
                              (dom s)
  = (currentLang s, dom s).
Proof.
  intros Hu Hkeep. unfold init.
  destruct (buildDOM _ _) as [s0|] eqn:Hb; [|done]. intros [= <-].
  apply buildDOM_Some in Hb as (d & Hr & ->). simpl in Hr.
  set (cs := dataComponents data) in *.
  set (lang := str_or (language data) "en") in *.
  assert (dom (if isInIframe
               then enableEditMode (setDom d (mkState cs lang [] []))
               else setDom d (mkState cs lang [] [])) = d) as ->
    by by destruct isInIframe.
  assert (currentLang (if isInIframe
               then enableEditMode (setDom d (mkState cs lang [] []))
               else setDom d (mkState cs lang [] [])) = lang) as ->
    by by destruct isInIframe.
  unfold Static.loadAndApplyFromJSON. fold lang. f_equal.
  assert (∀ e, e ∈ d ≫= subElements →
            ∃ c' n', c' ∈ cs ∧ buildElement n' cs lang c' = Some e) as Hbuilt.
  { unfold render in Hr. destruct (rootComponent cs) as [r|] eqn:Hroot.
    - destruct (buildElement fuel cs lang r) as [el0|] eqn:Hb0; [|done].
      injection Hr as <-. intros e He.
      change ([el0] ≫= subElements) with (subElements el0 ++ []) in He.
      rewrite app_nil_r in He. revert e He. apply Forall_forall.
      apply (built_subElements cs lang fuel r); [done|].
      by apply rootComponent_elem_of in Hroot as [? _].
    - injection Hr as <-. by intros e ?%elem_of_nil. }
  assert (∀ comp, comp ∈ cs → Static.applyTo lang d comp = d) as Hfix.
  { intros comp Hcomp. unfold Static.applyTo.
    destruct (updateFirstOf _ d) as [d'|] eqn:Hd; [|done]. simpl.
    eapply updateFirstOf_fixed; [|exact Hd].
    intros e He Hp. destruct (Hbuilt e He) as (c' & n' & Hc' & Hb').
    unfold matchesId in Hp. apply bool_decide_eq_true_1 in Hp.
    rewrite Forall_forall in Hkeep.
    rewrite (buildElement_dataId _ _ _ _ _ Hb' (Hkeep c' Hc')) in Hp.
    injection Hp as Hp. apply (inj pretty) in Hp.
    rewrite <-(unique_record cs Hu c' comp Hc' Hcomp Hp).
    by eapply applyComponent_built. }
  assert (∀ l, (∀ comp, comp ∈ l → Static.applyTo lang d comp = d) →
               foldl (Static.applyTo lang) d l = d) as Hfold.
  { induction l as [|c l IH]; intros Hl; [done|]. simpl.
    rewrite Hl by by left. apply IH. intros c' ?. apply Hl. by right. }
  by apply Hfold.
Qed.


Lemma static_load_fixes_built_page_on_chain :
  currentLang chainPage = "en" ∧
  Static.loadAndApplyFromJSON None (Some chainStore) (dom chainPage)
  = (currentLang chainPage, dom chainPage).
Proof.
  split; [reflexivity|].
  apply (static_load_fixes_built_page 6 true (mkDataJson None chainStore)
           chainPage).
  - unfold uniqueIds. compute_done.
  - repeat constructor; intros kvs; discriminate.
  - vm_compute. reflexivity.
Defined.


(** X20. On the live-edit messages the handlers of the two variants do the
    same to the page, with two exceptions, on which the static handler leaves
    the page as it is while the dynamic one clears the selection: a
    [highlight] of an id that is on no element, and a [clear-highlight] that
    carries no [data] object. *)
Theorem static_handler_agrees_with_dynamic fuel e hasData s s' :
  pureDom (command e) → handleMessage fuel e s = Some s' →
  Static.handleMessage e hasData (dom s)
  = (if staticStopsEarly (command e) hasData (dom s) then dom s else dom s') ∧
  (staticStopsEarly (command e) hasData (dom s) = true →
   source e = Some VISUAL_EDITOR → dom s' = clearSelected <$> dom s).
Proof.
  unfold handleMessage, Static.handleMessage.
  case_decide as Hsrc; [|intros _ [= <-]; split; [by destruct (staticStopsEarly _ _ _)|done]].
  destruct (command e) as [i c|i k v|i| | | | | |]; try done; intros _ [= <-].
  - split; [|done]. unfold updateContent, updateDom. simpl.
    by destruct (updateFirstOf _ (dom s)).
  - split; [|done]. unfold updateStyle, updateDom. simpl.
    by destruct (updateFirstOf _ (dom s)).
  - unfold staticStopsEarly, highlightElement, updateDom.
    change (dom (clearHighlight s)) with (clearSelected <$> dom s).
    destruct (querySelectorIn (matchesId i) (dom s)) as [r|] eqn:Hq.
    + rewrite bool_decide_eq_false_2.
      * split; [|done].
        destruct (updateFirstOf _ (clearSelected <$> dom s)) eqn:Hu; [done|].
        apply updateFirstOf_None, querySelectorIn_matchesId_None in Hu.
        rewrite (bind_fmap_clearSelected addressable _
                   addressable_clearSelected) in Hu.
        apply querySelectorIn_matchesId_None in Hu. congruence.
      * intros Hnin. apply querySelectorIn_matchesId_None in Hnin. congruence.
    + pose proof Hq as Hnin. apply querySelectorIn_matchesId_None in Hnin.
      rewrite bool_decide_eq_true_2 by done. split; [done|]. intros _ _.
      assert (querySelectorIn (matchesId i) (clearSelected <$> dom s) = None)
        as Hq'.
      { apply querySelectorIn_matchesId_None.
        by rewrite (bind_fmap_clearSelected addressable _
                      addressable_clearSelected). }
      apply (updateFirstOf_None _ (setSelected true)) in Hq'.
      by rewrite Hq'.
  - simpl. destruct hasData; simpl; [done|]. split; [done|]. by intros _ _.
Qed.

Lemma static_handler_agrees_with_dynamic_on_chain :
  ∃ s', handleMessage 0 (fromHost (Highlight 99)) (highlightElement 4 chainPage)
        = Some s' ∧
    dom (highlightElement 4 chainPage) ≫= selectedIds = [Some "4"] ∧
    dom s' ≫= selectedIds = [] ∧
    Static.handleMessage (fromHost (Highlight 99)) true
      (dom (highlightElement 4 chainPage)) ≫= selectedIds = [Some "4"] ∧
    Static.handleMessage (fromHost (Highlight 99)) true
      (dom (highlightElement 4 chainPage))
    = (if staticStopsEarly (Highlight 99) true
            (dom (highlightElement 4 chainPage))
       then dom (highlightElement 4 chainPage) else dom s').
Proof.
  destruct (handleMessage 0 (fromHost (Highlight 99))
              (highlightElement 4 chainPage)) as [s'|] eqn:H1;
    [|vm_compute in H1; discriminate H1].
  exists s'. split; [reflexivity|]. split; [reflexivity|].
  destruct (static_handler_agrees_with_dynamic 0 (fromHost (Highlight 99)) true
              (highlightElement 4 chainPage) s' I H1) as [Hs _].
  split; [|split; [reflexivity|exact Hs]].
  vm_compute in H1. injection H1 as <-. reflexivity.
Defined.
